(** * Caller liveness tracking (package peertracker, kqueue backend)

    A shallow embedding of the BSD process tracker of
    [cmd/spire-server/cli/template/show.go] (the part after the
    [//go:build darwin || freebsd || netbsd || openbsd] line): the tracker
    that owns the kqueue descriptor and the map of watched PIDs, the
    goroutine that drains exit events, and the per-caller watcher.

    Go objects that are shared by reference live in stores of the [World]:
    channels ([chan struct{}]) are indices into [chans], watchers
    ([*bsdWatcher]) are indices into [watchers].  A critical section of
    the source is one atomic step here; [IsAlive], which releases its
    lock before it sleeps and reads the channel without a lock, is split
    at these points so that other goroutines may run in between.  The
    results of system calls are inputs of the steps. *)

From Stdlib Require Import ZArith String.
From stdpp Require Import base option list gmap strings.

(** * The cache of attested nodes (package nodecache)

    [pkg/common/witsvid/common.go], from its [package nodecache] line
    on; the test of [cmd/spire-server/cli/template/show.go]
    ([TestBuildCache]) drives it.  The datastore is outside the package:
    its answers, like the readings of the clock, are inputs. *)

Module nodecache.

(** A [time.Time], as the nanoseconds since the zero time
    [time.Time{}]. *)
Definition Time := Z.
Definition zeroTime : Time := 0%Z.

Definition error := string.

(** [common.AttestedNode], with the fields the test sets; the cache
    reads [SpiffeId] only. *)
Record AttestedNode : Set := {
  SpiffeId : string;
  AttestationDataType : string;
  CertSerialNumber : string;
  CertNotAfter : Z
}.

Record ListAttestedNodesRequest : Set := { ValidAt : Time }.
Record ListAttestedNodesResponse : Set := { Nodes : list AttestedNode }.

(** The datastore as it stands when it is asked: what
    [ListAttestedNodes] and [FetchAttestedNode] answer.  A node that
    is not there is a nil pointer and no error. *)
Record DataStore : Type := {
  ListAttestedNodes : ListAttestedNodesRequest → error + ListAttestedNodesResponse;
  ds_FetchAttestedNode : string → error + option AttestedNode
}.

(** [Cache]; a value of [nodes] is a pointer, nil perhaps. *)
Record Cache : Type := {
  buildTime : Time;
  nodes : gmap string (option AttestedNode);
  nodeRefreshTime : gmap string Time
}.

(** The body of the loop of [BuildFromDatastore]:
    [cache.nodes[node.SpiffeId] = node]. *)
Definition build_step (cache : Cache) (node : AttestedNode) : Cache :=
  {| buildTime := buildTime cache;
     nodes := <[SpiffeId node := Some node]> (nodes cache);
     nodeRefreshTime := nodeRefreshTime cache |}.

(** [BuildFromDatastore]: [now] is what [time.Now()] gave. *)
Definition BuildFromDatastore (now : Time) (ds : DataStore) : error + Cache :=
  match ListAttestedNodes ds {| ValidAt := now |} with
  | inl err => inl err
  | inr resp =>
      inr (foldl build_step
                 {| buildTime := now; nodes := ∅; nodeRefreshTime := ∅ |}
                 (Nodes resp))
  end.

(** [Cache.FetchAttestedNode]: the node, the time, the error. *)
Definition FetchAttestedNode (id : string) (c : Cache)
  : option AttestedNode * Time * option error :=
  match nodes c !! id with
  | None => (None, zeroTime, None)
  | Some node =>
      let t := match nodeRefreshTime c !! id with
               | Some t => t
               | None => buildTime c
               end in
      (node, t, None)
  end.

(** [Cache.RefreshAttestedNode]: [ds] is the datastore as it stands,
    [now] what [time.Now()] gave. *)
Definition RefreshAttestedNode (now : Time) (ds : DataStore) (id : string)
    (c : Cache) : (error + option AttestedNode) * Cache :=
  match ds_FetchAttestedNode ds id with
  | inl err => (inl err, c)
  | inr node =>
      (inr node,
       {| buildTime := buildTime c;
          nodes := <[id := node]> (nodes c);
          nodeRefreshTime := <[id := now]> (nodeRefreshTime c) |})
  end.

(** [Cache.Rebuild] *)
Definition Rebuild (c : Cache) : option error * Cache := (None, c).

(** What ends the [select] of [PeriodicRebuild]: the context is done,
    with its error, or the ticker ticks. *)
Inductive Wakeup : Set :=
| CtxDone (err : error)
| Tick.

(** [Cache.PeriodicRebuild] *)
Definition PeriodicRebuild (wake : Wakeup) (c : Cache) : option error * Cache :=
  match wake with
  | CtxDone err => (Some err, c)
  | Tick => let '(_, c') := Rebuild c in (None, c')
  end.

(** What is done to a cache after it is built. *)
Inductive Op : Type :=
| ORefresh (now : Time) (ds : DataStore) (id : string)
| ORebuild
| OPeriodicRebuild (wake : Wakeup).

Definition apply_op (o : Op) (c : Cache) : Cache :=
  match o with
  | ORefresh now ds id => snd (RefreshAttestedNode now ds id c)
  | ORebuild => snd (Rebuild c)
  | OPeriodicRebuild wake => snd (PeriodicRebuild wake c)
  end.

Definition apply_ops (os : list Op) (c : Cache) : Cache :=
  foldl (λ c o, apply_op o c) c os.

(** The clock readings of the operations are not before [t]. *)
Definition clock_from (t : Time) (os : list Op) : Prop :=
  Forall (λ o, match o with ORefresh now _ _ => (t ≤ now)%Z | _ => True end) os.

(** The last node of the list with the given id. *)
Definition last_with (id : string) (l : list AttestedNode) : option AttestedNode :=
  last (filter (λ n, SpiffeId n = id) l).

(** The agents of [TestBuildCache], and a datastore that lists the
    first agent, the second, and the second again with a new serial
    number; it knows no agent by id. *)
Definition firstAgent : AttestedNode :=
  {| SpiffeId := "spiffe://example.org/agent-1";
     AttestationDataType := "example";
     CertSerialNumber := "123456"; CertNotAfter := 86400%Z |}.

Definition secondAgent : AttestedNode :=
  {| SpiffeId := "spiffe://example.org/agent-2";
     AttestationDataType := "example";
     CertSerialNumber := "234567"; CertNotAfter := 86400%Z |}.

Definition secondAgentUpdated : AttestedNode :=
  {| SpiffeId := "spiffe://example.org/agent-2";
     AttestationDataType := "example";
     CertSerialNumber := "456789"; CertNotAfter := 86400%Z |}.

Definition fake_ds : DataStore :=
  {| ListAttestedNodes := λ _,
       inr {| Nodes := [firstAgent; secondAgent; secondAgentUpdated] |};
     ds_FetchAttestedNode := λ _, inr None |}.

Definition failing_ds : DataStore :=
  {| ListAttestedNodes := λ _, inl "datastore is down"%string;
     ds_FetchAttestedNode := λ _, inl "datastore is down"%string |}.

(** The cache built from [fake_ds] at time 100. *)
Definition fake_cache : Cache :=
  foldl build_step {| buildTime := 100%Z; nodes := ∅; nodeRefreshTime := ∅ |}
        [firstAgent; secondAgent; secondAgentUpdated].

End nodecache.

(** * The show command of the templates (package template)

    [cmd/spire-server/cli/template/show.go], up to its first separator
    line.  The entry client is outside the package: its answers are
    inputs. *)

Module template.

Definition error := string.

(** [StringsFlag] *)
Definition StringsFlag := list string.

Record showCommand : Set := {
  selectors : StringsFlag;
  templateID : string;
  parentID : string;
  hint : string;
  federatesWith : StringsFlag;
  downstream : bool;
  matchFederatesWithOn : string;
  matchSelectorsOn : string
}.

Definition listEntriesRequestPageSize : Z := 500.

(** [showCommand.validate]: nil is [None]. *)
Definition validate (c : showCommand) : option error :=
  if negb (String.eqb (templateID c) "")
  then if negb (String.eqb (parentID c) "") || (0 <? length (selectors c))%nat
       then Some "the -templateID flag can't be combined with others"
       else None
  else None.

(** A [types.SPIFFEIDTemplate], by its id; the command does not look
    into the templates. *)
Record SPIFFEIDTemplate : Set := { Id : string }.

Record ListSPIFFEIDTemplatesRequest : Set := {
  PageSize : Z;
  PageToken : string
}.

Record ListSPIFFEIDTemplatesResponse : Set := {
  Templates : list SPIFFEIDTemplate;
  NextPageToken : string
}.

(** The state of [fetchEntries]: the requests sent so far, the
    templates gathered, the token for the next page. *)
Record Fetch : Set := {
  sent : list ListSPIFFEIDTemplatesRequest;
  gathered : list SPIFFEIDTemplate;
  pageToken : string
}.

(** [fmt.Errorf("error fetching entries: %w", err)] *)
Definition wrap_fetch_error (err : error) : error :=
  ("error fetching entries: " ++ err)%string.

(** The request for the page with the given token. *)
Definition page_request (token : string) : ListSPIFFEIDTemplatesRequest :=
  {| PageSize := listEntriesRequestPageSize; PageToken := token |}.

(** The loop of [fetchEntries] on the successive answers of
    [client.ListSPIFFEIDTemplates].  [None]: the answers are used up
    and the loop waits for the next one. *)
Fixpoint fetch_loop (answers : list (error + ListSPIFFEIDTemplatesResponse))
    (st : Fetch)
  : option ((error + ListSPIFFEIDTemplatesResponse)
            * list ListSPIFFEIDTemplatesRequest) :=
  match answers with
  | [] => None
  | answer :: answers' =>
      let req := page_request (pageToken st) in
      match answer with
      | inl err => Some (inl (wrap_fetch_error err), sent st ++ [req])
      | inr resp =>
          let templates := gathered st ++ Templates resp in
          if String.eqb (NextPageToken resp) ""
          then Some (inr {| Templates := templates; NextPageToken := "" |},
                     sent st ++ [req])
          else fetch_loop answers'
                          {| sent := sent st ++ [req];
                             gathered := templates;
                             pageToken := NextPageToken resp |}
      end
  end.

(** [showCommand.fetchEntries]: the answer, and the requests sent. *)
Definition fetchEntries (c : showCommand)
    (answers : list (error + ListSPIFFEIDTemplatesResponse)) :=
  fetch_loop answers {| sent := []; gathered := []; pageToken := "" |}.

(** [showCommand.Run], up to the printing of the answer: the error or
    the answer that is printed, and the requests sent. *)
Definition Run (c : showCommand)
    (answers : list (error + ListSPIFFEIDTemplatesResponse))
  : option ((error + ListSPIFFEIDTemplatesResponse)
            * list ListSPIFFEIDTemplatesRequest) :=
  match validate c with
  | Some err => Some (inl err, [])
  | None => fetchEntries c answers
  end.








(** The pages of an answer in several parts: all but the last name a
    next page. *)
Definition more_pages (pages : list ListSPIFFEIDTemplatesResponse) : Prop :=
  Forall (λ p, NextPageToken p ≠ ""%string) pages.

(** Two pages of templates, and a last one. *)
Definition page1 : ListSPIFFEIDTemplatesResponse :=
  {| Templates := [{| Id := "a" |}; {| Id := "b" |}]; NextPageToken := "t1" |}.
Definition page2 : ListSPIFFEIDTemplatesResponse :=
  {| Templates := [{| Id := "c" |}]; NextPageToken := "t2" |}.
Definition page3 : ListSPIFFEIDTemplatesResponse :=
  {| Templates := [{| Id := "d" |}]; NextPageToken := "" |}.

(** A command with no flag set, and one that asks for a template id
    and a parent id. *)
Definition show_all : showCommand :=
  {| selectors := []; templateID := ""; parentID := ""; hint := "";
     federatesWith := []; downstream := false;
     matchFederatesWithOn := "superset"; matchSelectorsOn := "superset" |}.

Definition show_clash : showCommand :=
  {| selectors := []; templateID := "x"; parentID := "spiffe://example.org/p";
     hint := ""; federatesWith := []; downstream := false;
     matchFederatesWithOn := "superset"; matchSelectorsOn := "superset" |}.

End template.

Module peertracker.

(** ** The platform: golang.org/x/sys/unix and pkg/common/util *)

(** The constants of [golang.org/x/sys/unix] differ between the BSDs and
    are not part of the sources at hand, and neither is
    [util.CheckedCast]; the development is parametric in them. *)
Class Platform := {
  EV_ADD : Z;
  EV_RECEIPT : Z;
  EV_ONESHOT : Z;
  EVFILT_PROC : Z;
  NOTE_EXIT : Z;
  (** [util.CheckedCast[int]] applied to a [uint64]: the value, or an error *)
  CheckedCast_int : Z -> option Z
}.

(** The error numbers that KQUEUE(2) documents for kevent, as listed in
    the comment of [receiveKevents]. *)
Inductive Errno : Set :=
| EACCES | EFAULT | EBADF | EINTR | EINVAL | ENOENT | ENOMEM | ESRCH.

#[global] Instance Errno_eq_dec : EqDecision Errno.
Proof. solve_decision. Defined.

(** [errors.Is(err, unix.EINTR)] *)
Definition is_EINTR (e : Errno) : bool :=
  match e with EINTR => true | _ => false end.

(** [unix.Kevent_t] *)
Record Kevent_t : Set := {
  Ident : Z;    (* uint64 *)
  Filter : Z;   (* int16 *)
  Flags : Z;    (* uint16 *)
  Fflags : Z;   (* uint32 *)
  Data : Z      (* int64 *)
}.

(** [uint64(x)], [int16(x)], [uint16(x)] of a Go [int] *)
Definition to_uint64 (x : Z) : Z := (x mod 2 ^ 64)%Z.
Definition to_uint16 (x : Z) : Z := (x mod 2 ^ 16)%Z.
Definition to_int16 (x : Z) : Z := ((x + 2 ^ 15) mod 2 ^ 16 - 2 ^ 15)%Z.

(** [unix.SetKevent(k, fd, mode, flags)] on a zero [Kevent_t] *)
Definition SetKevent (fd mode flags : Z) : Kevent_t :=
  {| Ident := to_uint64 fd; Filter := to_int16 mode;
     Flags := to_uint16 flags; Fflags := 0; Data := 0 |}.

(** ** Errors of the public operations

    The source builds them with [errors.New] and [fmt.Errorf]; the
    constructors carry the names of the specification's taxonomy and
    [Error_string] gives the text of the source. *)
Inductive Error : Set :=
| InvalidCallerError
| ClosedError
| WatchCreationError (cause : Errno)
| NotWatchedError
| CallerExitedError.

Definition Error_string (e : Error) : string :=
  match e with
  | InvalidCallerError => "could not resolve caller information"
  | ClosedError => "tracker has been closed"
  | WatchCreationError _ => "could not create watcher: %w"
  | NotWatchedError => "caller is no longer being watched"
  | CallerExitedError => "caller exit detected via kevent notification"
  end.

(** ** Data *)

(** [CallerInfo]: the tracker reads the [PID] field only (an [int32]). *)
Record CallerInfo : Set := { PID : Z }.

(** [time.Duration] counts nanoseconds. *)
Definition Millisecond : Z := 1000000.
Definition safetyDelay : Z := 250 * Millisecond.

(** A channel is a reference into the store [chans]; the store holds,
    for every channel made so far, whether it has been closed. *)
Definition chan := nat.

Record bsdTracker : Type := {
  ctx_done : bool;              (* b.ctx.Err() != nil *)
  kqfd : Z;
  kqfd_closed : bool;
  watchedPIDs : gmap Z chan
}.

Record bsdWatcher : Set := {
  closed : bool;
  done : chan;
  pid : Z
}.

(** Where a call of [IsAlive] stands. *)
Inductive IsAlivePC : Set :=
| pc_lock                          (* about to take b.mtx and read b.closed *)
| pc_sleep                         (* about to time.Sleep(safetyDelay) *)
| pc_select                        (* about to select on b.done *)
| pc_return (err : option Error).  (* returned err (None is nil) *)

Record IsAliveCall : Set := {
  call_w : nat;
  call_pc : IsAlivePC
}.

(** Why the process panicked. *)
Inductive Panic : Set :=
| PanicKqueue (e : Errno)   (* "unrecoverable error while reading from kqueue: %v" *)
| PanicCloseOfClosedChannel.

(** The goroutine started by [newTracker]. *)
Inductive LoopStatus : Set :=
| LoopRunning
| LoopReturned
| LoopPanicked (p : Panic).

(** One call of [unix.Kevent] with a change list, as the kernel saw it. *)
Record KeventCall : Set := {
  kc_pid : Z;
  kc_change : Kevent_t;
  kc_err : option Errno
}.

Record World : Type := {
  tracker : bsdTracker;
  chans : list bool;
  watchers : list bsdWatcher;
  calls : list IsAliveCall;
  loop : LoopStatus;
  kevent_changes : list KeventCall;   (* registrations asked of the kernel *)
  sleeps : list (nat * Z);            (* time.Sleep calls: (call, duration) *)
  exited : list Z                     (* processes that have terminated *)
}.

Definition set_tracker (t : bsdTracker) (σ : World) : World :=
  {| tracker := t; chans := chans σ; watchers := watchers σ;
     calls := calls σ; loop := loop σ;
     kevent_changes := kevent_changes σ; sleeps := sleeps σ;
     exited := exited σ |}.

Definition set_chans (h : list bool) (σ : World) : World :=
  {| tracker := tracker σ; chans := h; watchers := watchers σ;
     calls := calls σ; loop := loop σ;
     kevent_changes := kevent_changes σ; sleeps := sleeps σ;
     exited := exited σ |}.

Definition set_watchers (ws : list bsdWatcher) (σ : World) : World :=
  {| tracker := tracker σ; chans := chans σ; watchers := ws;
     calls := calls σ; loop := loop σ;
     kevent_changes := kevent_changes σ; sleeps := sleeps σ;
     exited := exited σ |}.

Definition set_calls (cs : list IsAliveCall) (σ : World) : World :=
  {| tracker := tracker σ; chans := chans σ; watchers := watchers σ;
     calls := cs; loop := loop σ;
     kevent_changes := kevent_changes σ; sleeps := sleeps σ;
     exited := exited σ |}.

Definition set_loop (s : LoopStatus) (σ : World) : World :=
  {| tracker := tracker σ; chans := chans σ; watchers := watchers σ;
     calls := calls σ; loop := s;
     kevent_changes := kevent_changes σ; sleeps := sleeps σ;
     exited := exited σ |}.

Definition set_kevent_changes (l : list KeventCall) (σ : World) : World :=
  {| tracker := tracker σ; chans := chans σ; watchers := watchers σ;
     calls := calls σ; loop := loop σ;
     kevent_changes := l; sleeps := sleeps σ;
     exited := exited σ |}.

Definition set_sleeps (l : list (nat * Z)) (σ : World) : World :=
  {| tracker := tracker σ; chans := chans σ; watchers := watchers σ;
     calls := calls σ; loop := loop σ;
     kevent_changes := kevent_changes σ; sleeps := l;
     exited := exited σ |}.

Definition set_exited (l : list Z) (σ : World) : World :=
  {| tracker := tracker σ; chans := chans σ; watchers := watchers σ;
     calls := calls σ; loop := loop σ;
     kevent_changes := kevent_changes σ; sleeps := sleeps σ;
     exited := l |}.

Definition set_watchedPIDs (m : gmap Z chan) (t : bsdTracker) : bsdTracker :=
  {| ctx_done := ctx_done t; kqfd := kqfd t;
     kqfd_closed := kqfd_closed t; watchedPIDs := m |}.

(** ** The tracker *)

Section Tracker.
Context `{Platform}.

(** [newTracker]: [kq] is what [unix.Kqueue()] returned.  The goroutine
    [receiveKevents] is started: [loop] is [LoopRunning]. *)
Definition newTracker (kq : Errno + Z) : Errno + World :=
  match kq with
  | inl err => inl err
  | inr fd =>
      inr {| tracker := {| ctx_done := false; kqfd := fd;
                           kqfd_closed := false; watchedPIDs := ∅ |};
             chans := []; watchers := []; calls := [];
             loop := LoopRunning;
             kevent_changes := []; sleeps := []; exited := [] |}
  end.

(** [bsdTracker.Close]: cancel the context, then close the descriptor. *)
Definition Tracker_Close (σ : World) : World :=
  set_tracker {| ctx_done := true; kqfd := kqfd (tracker σ);
                 kqfd_closed := true;
                 watchedPIDs := watchedPIDs (tracker σ) |} σ.

(** [addKeventForWatcher]: [kres] is the error of [unix.Kevent] ([None]
    is nil). *)
Definition addKeventForWatcher (p : Z) (kres : option Errno) (σ : World)
  : option Errno * World :=
  let flags := Z.lor (Z.lor EV_ADD EV_RECEIPT) EV_ONESHOT in
  let k := SetKevent p EVFILT_PROC flags in
  let kevent := {| Ident := Ident k; Filter := Filter k; Flags := Flags k;
                   Fflags := NOTE_EXIT; Data := Data k |} in
  (kres,
   set_kevent_changes
     (kevent_changes σ ++ [{| kc_pid := p; kc_change := kevent; kc_err := kres |}])
     σ).

(** [newBSDWatcher]: a new watcher object; its reference is returned. *)
Definition newBSDWatcher (info : CallerInfo) (d : chan) (σ : World)
  : nat * World :=
  (length (watchers σ),
   set_watchers (watchers σ ++ [{| closed := false; done := d; pid := PID info |}]) σ).

(** [bsdTracker.NewWatcher].  [int(info.PID)] keeps the value.  The
    source tests the PID and the context before it takes [b.mtx]; the
    whole call is one step here, so a [Close] of the tracker falls before
    or after the call, never between the test of the context and the
    locked part. *)
Definition NewWatcher (info : CallerInfo) (kres : option Errno) (σ : World)
  : (Error + nat) * World :=
  if (PID info =? 0)%Z then (inl InvalidCallerError, σ)
  else if ctx_done (tracker σ) then (inl ClosedError, σ)
  else
    let p := PID info in
    match watchedPIDs (tracker σ) !! p with
    | Some d =>
        let '(w, σ') := newBSDWatcher info d σ in (inr w, σ')
    | None =>
        let '(err, σ1) := addKeventForWatcher p kres σ in
        match err with
        | Some e => (inl (WatchCreationError e), σ1)
        | None =>
            let d := length (chans σ1) in
            let σ2 := set_chans (chans σ1 ++ [false]) σ1 in
            let σ3 := set_tracker
                        (set_watchedPIDs (<[p := d]> (watchedPIDs (tracker σ2)))
                                         (tracker σ2)) σ2 in
            let '(w, σ') := newBSDWatcher info d σ3 in (inr w, σ')
        end
    end.

(** ** The dispatch loop *)

(** [kevent.Filter == unix.EVFILT_PROC && (kevent.Fflags&unix.NOTE_EXIT) > 0] *)
Definition is_exit_event (ev : Kevent_t) : bool :=
  (Filter ev =? EVFILT_PROC)%Z && (0 <? Z.land (Fflags ev) NOTE_EXIT)%Z.

(** [close(done)]: closing a closed (or nil) channel panics. *)
Definition close_chan (d : chan) (h : list bool) : option (list bool) :=
  match h !! d with
  | Some false => Some (<[d := true]> h)
  | _ => None
  end.

(** The body of the loop over [receive[:num]], for one event; [None] is
    a panic. *)
Definition handle_kevent (ev : Kevent_t) (σ : World) : option World :=
  if is_exit_event ev then
    match CheckedCast_int (Ident ev) with
    | None => Some σ          (* logged, continue *)
    | Some p =>
        match watchedPIDs (tracker σ) !! p with
        | Some d =>
            match close_chan d (chans σ) with
            | Some h =>
                Some (set_tracker
                        (set_watchedPIDs (delete p (watchedPIDs (tracker σ)))
                                         (tracker σ))
                        (set_chans h σ))
            | None => None
            end
        | None => Some σ
        end
    end
  else Some σ.

(** The loop over the batch; on a panic the world reached so far stays. *)
Fixpoint handle_kevents (evs : list Kevent_t) (σ : World) : option Panic * World :=
  match evs with
  | [] => (None, σ)
  | ev :: evs' =>
      match handle_kevent ev σ with
      | Some σ' => handle_kevents evs' σ'
      | None => (Some PanicCloseOfClosedChannel, σ)
      end
  end.

Inductive LoopOutcome : Set :=
| LoopContinue
| LoopReturn
| LoopPanic (p : Panic).

(** One iteration of the [for] of [receiveKevents]: [res] is what
    [unix.Kevent(kqfd, nil, receive, nil)] gave, an error or the events
    [receive[:num]]. *)
Definition receiveKevents_iter (res : Errno + list Kevent_t) (σ : World)
  : LoopOutcome * World :=
  match res with
  | inl err =>
      if ctx_done (tracker σ) then (LoopReturn, σ)
      else if is_EINTR err then (LoopContinue, σ)
      else (LoopPanic (PanicKqueue err), σ)
  | inr evs =>
      match handle_kevents evs σ with
      | (None, σ') => (LoopContinue, σ')
      | (Some p, σ') => (LoopPanic p, σ')
      end
  end.

(** [receiveKevents], run on the results of its successive waits.  When
    the results are used up the goroutine is blocked in [unix.Kevent]:
    [LoopContinue]. *)
Fixpoint receiveKevents (ress : list (Errno + list Kevent_t)) (σ : World)
  : LoopOutcome * World :=
  match ress with
  | [] => (LoopContinue, σ)
  | res :: ress' =>
      match receiveKevents_iter res σ with
      | (LoopContinue, σ') => receiveKevents ress' σ'
      | out => out
      end
  end.

End Tracker.

(** ** The watcher *)

Definition set_closed (b : bsdWatcher) : bsdWatcher :=
  {| closed := true; done := done b; pid := pid b |}.

(** [bsdWatcher.Close]: sets the closed bit under the watcher's lock and
    touches nothing else.  A reference that is not in the store is a nil
    receiver: no step. *)
Definition Watcher_Close (w : nat) (σ : World) : World :=
  match watchers σ !! w with
  | Some b => set_watchers (<[w := set_closed b]> (watchers σ)) σ
  | None => σ
  end.

(** [bsdWatcher.PID] *)
Definition Watcher_PID (w : nat) (σ : World) : option Z :=
  pid <$> watchers σ !! w.

(** The [select] of [IsAlive]: [<-b.done] is ready exactly when the
    channel is closed, since nothing is ever sent on it. *)
Definition chan_fired (d : chan) (h : list bool) : bool :=
  match h !! d with
  | Some true => true
  | _ => false
  end.

Definition set_pc (c : nat) (cl : IsAliveCall) (pc : IsAlivePC) (σ : World) : World :=
  set_calls (<[c := {| call_w := call_w cl; call_pc := pc |}]> (calls σ)) σ.

(** A goroutine enters [IsAlive] on watcher [w]; the call gets the next
    free identifier. *)
Definition IsAlive_call (w : nat) (σ : World) : nat * World :=
  (length (calls σ),
   set_calls (calls σ ++ [{| call_w := w; call_pc := pc_lock |}]) σ).

(** The next atomic piece of call [c] of [IsAlive]: the locked read of
    [b.closed], then [time.Sleep(safetyDelay)], then the [select]. *)
Definition IsAlive_step (c : nat) (σ : World) : World :=
  match calls σ !! c with
  | None => σ
  | Some cl =>
      match watchers σ !! call_w cl with
      | None => σ
      | Some b =>
          match call_pc cl with
          | pc_lock =>
              if closed b then set_pc c cl (pc_return (Some NotWatchedError)) σ
              else set_pc c cl pc_sleep σ
          | pc_sleep =>
              set_pc c cl pc_select
                     (set_sleeps (sleeps σ ++ [(c, safetyDelay)]) σ)
          | pc_select =>
              if chan_fired (done b) (chans σ)
              then set_pc c cl (pc_return (Some CallerExitedError)) σ
              else set_pc c cl (pc_return None) σ
          | pc_return _ => σ
          end
      end
  end.

(** What call [c] returned, once it has. *)
Definition IsAlive_result (c : nat) (σ : World) : option (option Error) :=
  match call_pc <$> calls σ !! c with
  | Some (pc_return r) => Some r
  | _ => None
  end.

(** The durations call [c] has slept, in order. *)
Definition sleeps_of (c : nat) (σ : World) : list Z :=
  snd <$> filter (λ x, fst x = c) (sleeps σ).

(** [bsdWatcher.IsAlive] run to its end with no other goroutine
    scheduled in between. *)
Definition IsAlive (w : nat) (σ : World) : option (option Error) * World :=
  let '(c, σ0) := IsAlive_call w σ in
  let σ3 := IsAlive_step c (IsAlive_step c (IsAlive_step c σ0)) in
  (IsAlive_result c σ3, σ3).

(** ** The whole process *)

(** What a goroutine, or the kernel, does next. *)
Inductive Event : Type :=
| ENewWatcher (info : CallerInfo) (kres : option Errno)
| ETrackerClose
| EWatcherClose (w : nat)
| EIsAliveCall (w : nat)
| EIsAliveStep (c : nat)
| EKevent (res : Errno + list Kevent_t)   (* the wait of the loop returns *)
| EProcExit (p : Z).                      (* process p terminates *)

Section Process.
Context `{Platform}.

Definition loop_after (out : LoopOutcome) : LoopStatus :=
  match out with
  | LoopContinue => LoopRunning
  | LoopReturn => LoopReturned
  | LoopPanic p => LoopPanicked p
  end.

(** One step of the process.  The dispatch loop takes steps only while
    it runs.  A panic ends the whole process; the steps of the other
    goroutines are left enabled after it, which only adds behaviours. *)
Definition step (e : Event) (σ : World) : World :=
  match e with
  | ENewWatcher info kres => snd (NewWatcher info kres σ)
  | ETrackerClose => Tracker_Close σ
  | EWatcherClose w => Watcher_Close w σ
  | EIsAliveCall w => snd (IsAlive_call w σ)
  | EIsAliveStep c => IsAlive_step c σ
  | EKevent res =>
      match loop σ with
      | LoopRunning =>
          let '(out, σ') := receiveKevents_iter res σ in
          set_loop (loop_after out) σ'
      | _ => σ
      end
  | EProcExit p => set_exited (exited σ ++ [p]) σ
  end.

Definition run (tr : list Event) (σ : World) : World :=
  foldl (λ s e, step e s) σ tr.

(** The worlds the process can be in: [newTracker] succeeded and some
    steps were taken. *)
Definition reachable (σ : World) : Prop :=
  ∃ fd tr σ0, newTracker (inr fd) = inr σ0 ∧ σ = run tr σ0.

(** The event hands the loop an exit event for process [p]. *)
Definition exit_for (p : Z) (ev : Kevent_t) : bool :=
  is_exit_event ev && bool_decide (CheckedCast_int (Ident ev) = Some p).

Definition delivers_exit (p : Z) (e : Event) : bool :=
  match e with
  | EKevent (inr evs) => existsb (exit_for p) evs
  | _ => false
  end.

(** The registrations for [p] asked of the kernel. *)
Definition attempts (p : Z) (σ : World) : list KeventCall :=
  filter (λ k, kc_pid k = p) (kevent_changes σ).

(** The exit signal [d] has fired, or it is the one registered for [p]. *)
Definition fired_or_tracked (p : Z) (d : chan) (σ : World) : Prop :=
  chans σ !! d = Some true ∨ watchedPIDs (tracker σ) !! p = Some d.

(** The registrations for [p] that the kernel accepted. *)
Definition registrations (p : Z) (σ : World) : list KeventCall :=
  filter (λ k, kc_pid k = p ∧ kc_err k = None) (kevent_changes σ).

(** Every channel of the registry is open, no two PIDs share one, and
    every watcher's channel has been made. *)
Record wf (σ : World) : Prop := {
  wf_open : ∀ p d, watchedPIDs (tracker σ) !! p = Some d → chans σ !! d = Some false;
  wf_inj : ∀ p q d, watchedPIDs (tracker σ) !! p = Some d →
                    watchedPIDs (tracker σ) !! q = Some d → p = q;
  wf_done : ∀ w b, watchers σ !! w = Some b → (done b < length (chans σ))%nat
}.

(** The event is a step of call [c] of [IsAlive]. *)
Definition is_step_of (c : nat) (e : Event) : bool :=
  match e with
  | EIsAliveStep c' => bool_decide (c' = c)
  | _ => false
  end.

(** The steps of [tr] are all taken by others than call [c]. *)
Definition others (c : nat) (tr : list Event) : bool :=
  forallb (λ e, negb (is_step_of c e)) tr.

(** The event does not name a watched process. *)
Definition exit_for_none (ev : Kevent_t) (σ : World) : Prop :=
  ∀ p, exit_for p ev = true → watchedPIDs (tracker σ) !! p = None.





(** What the dispatch loop leaves alone: everything but the registry
    and the state of the channels. *)
Definition loop_frame (σ σ' : World) : Prop :=
  watchers σ' = watchers σ ∧ calls σ' = calls σ ∧
  kevent_changes σ' = kevent_changes σ ∧ sleeps σ' = sleeps σ ∧
  exited σ' = exited σ ∧ ctx_done (tracker σ') = ctx_done (tracker σ) ∧
  length (chans σ') = length (chans σ).

(** How the dispatch loop can have ended: it returns only when the
    context is cancelled, and it panics only on an error of the wait
    that is not EINTR. *)
Definition loop_ok (σ : World) : Prop :=
  match loop σ with
  | LoopRunning => True
  | LoopReturned => ctx_done (tracker σ) = true
  | LoopPanicked (PanicKqueue e) => e ≠ EINTR
  | LoopPanicked PanicCloseOfClosedChannel => False
  end.

(** The loop passes over the event: it is no exit event, or its ident
    does not cast to a PID, or the PID is not in the registry. *)
Definition passed_over (σ : World) (ev : Kevent_t) : Prop :=
  is_exit_event ev = false ∨ CheckedCast_int (Ident ev) = None ∨
  ∃ p, CheckedCast_int (Ident ev) = Some p ∧ watchedPIDs (tracker σ) !! p = None.

(** What [IsAlive] answers on watcher [b] when the channels are [h]. *)
Definition answer (b : bsdWatcher) (h : list bool) : option Error :=
  if closed b then Some NotWatchedError
  else if chan_fired (done b) h then Some CallerExitedError
  else None.

(** The calls to the kernel that were accepted. *)
Definition accepted (σ : World) : list KeventCall :=
  filter (λ k, kc_err k = None) (kevent_changes σ).

(** What a call of [IsAlive] has slept, by where it stands. *)
Definition slept (pc : IsAlivePC) : list Z :=
  match pc with
  | pc_lock | pc_sleep | pc_return (Some NotWatchedError) => []
  | pc_select | pc_return _ => [safetyDelay]
  end.

End Process.

(** ** A concrete platform

    darwin/amd64: the values of [zerrors_darwin_amd64.go] in
    [golang.org/x/sys/unix]; [int] has 64 bits, so a [uint64] casts to
    [int] unless it exceeds the largest [int64]. *)
Definition darwin : Platform := {|
  EV_ADD := 0x1;
  EV_RECEIPT := 0x40;
  EV_ONESHOT := 0x10;
  EVFILT_PROC := -0x5;
  NOTE_EXIT := 0x80000000;
  CheckedCast_int := λ v, if ((0 <=? v) && (v <=? 2 ^ 63 - 1))%Z then Some v else None
|}.

(** The exit event that the kernel delivers for process [p]. *)
Definition exit_event (p : Z) : Kevent_t :=
  {| Ident := p; Filter := -0x5; Flags := 0x10; Fflags := 0x80000000; Data := 0 |}.

(** A tracker fresh from [newTracker] on descriptor 3. *)
Definition world0 : World :=
  {| tracker := {| ctx_done := false; kqfd := 3;
                   kqfd_closed := false; watchedPIDs := ∅ |};
     chans := []; watchers := []; calls := [];
     loop := LoopRunning;
     kevent_changes := []; sleeps := []; exited := [] |}.

(** * Properties *)

Section Proofs.
Context `{Platform}.

(** ** Frame properties of the steps *)

Lemma loop_frame_refl σ : loop_frame σ σ.
Proof. by repeat split. Qed.

Lemma loop_frame_trans σ1 σ2 σ3 :
  loop_frame σ1 σ2 → loop_frame σ2 σ3 → loop_frame σ1 σ3.
Proof.
  unfold loop_frame.
  intros (a1 & a2 & a3 & a4 & a5 & a6 & a7) (b1 & b2 & b3 & b4 & b5 & b6 & b7).
  repeat split; congruence.
Qed.

Lemma close_chan_length d h h' : close_chan d h = Some h' → length h' = length h.
Proof.
  unfold close_chan. intros Hc.
  destruct (h !! d) as [[|]|]; simplify_eq. by rewrite length_insert.
Qed.

Lemma handle_kevent_frame ev σ σ' :
  handle_kevent ev σ = Some σ' → loop_frame σ σ'.
Proof.
  unfold handle_kevent. intros Hk.
  destruct (is_exit_event ev); [|simplify_eq; apply loop_frame_refl].
  destruct (CheckedCast_int (Ident ev)) as [p|]; [|simplify_eq; apply loop_frame_refl].
  destruct (watchedPIDs (tracker σ) !! p) as [d|]; [|simplify_eq; apply loop_frame_refl].
  destruct (close_chan d (chans σ)) as [h|] eqn:Hc; [|done].
  simplify_eq. repeat split; simpl. by apply close_chan_length in Hc.
Qed.

Lemma handle_kevents_frame evs σ :
  loop_frame σ (snd (handle_kevents evs σ)).
Proof.
  revert σ. induction evs as [|ev evs IH]; intros σ; simpl.
  - apply loop_frame_refl.
  - destruct (handle_kevent ev σ) as [σ'|] eqn:Hk; simpl.
    + eapply loop_frame_trans; [by eapply handle_kevent_frame | apply IH].
    + apply loop_frame_refl.
Qed.

Lemma receiveKevents_iter_frame res σ :
  loop_frame σ (snd (receiveKevents_iter res σ)).
Proof.
  destruct res as [err|evs]; simpl.
  - destruct (ctx_done (tracker σ)); [apply loop_frame_refl|].
    destruct (is_EINTR err); apply loop_frame_refl.
  - pose proof (handle_kevents_frame evs σ) as Hf.
    destruct (handle_kevents evs σ) as [[p|] σ']; exact Hf.
Qed.

Lemma step_EKevent_frame res σ : loop_frame σ (step (EKevent res) σ).
Proof.
  simpl. destruct (loop σ); try apply loop_frame_refl.
  pose proof (receiveKevents_iter_frame res σ) as Hf.
  destruct (receiveKevents_iter res σ) as [out σ']. exact Hf.
Qed.

(** What [NewWatcher] does, case by case. *)
Lemma NewWatcher_cases info kres σ :
  let r := NewWatcher info kres σ in
  (PID info = 0%Z ∧ r = (inl InvalidCallerError, σ))
  ∨ (PID info ≠ 0%Z ∧ ctx_done (tracker σ) = true ∧ r = (inl ClosedError, σ))
  ∨ (PID info ≠ 0%Z ∧ ctx_done (tracker σ) = false ∧
     ∃ d, watchedPIDs (tracker σ) !! PID info = Some d ∧
          r = (inr (length (watchers σ)), snd (newBSDWatcher info d σ)))
  ∨ (PID info ≠ 0%Z ∧ ctx_done (tracker σ) = false ∧
     watchedPIDs (tracker σ) !! PID info = None ∧
     ∃ e, kres = Some e ∧
          r = (inl (WatchCreationError e),
               snd (addKeventForWatcher (PID info) kres σ)))
  ∨ (PID info ≠ 0%Z ∧ ctx_done (tracker σ) = false ∧
     watchedPIDs (tracker σ) !! PID info = None ∧ kres = None ∧
     let σ1 := snd (addKeventForWatcher (PID info) None σ) in
     let d := length (chans σ) in
     let σ3 := set_tracker
                 (set_watchedPIDs (<[PID info := d]> (watchedPIDs (tracker σ)))
                                  (tracker σ))
                 (set_chans (chans σ ++ [false]) σ1) in
     r = (inr (length (watchers σ)), snd (newBSDWatcher info d σ3))).
Proof.
  unfold NewWatcher. simpl.
  destruct (Z.eqb_spec (PID info) 0) as [Hz|Hz]; [by left|].
  destruct (ctx_done (tracker σ)) eqn:Hctx; [right; by left|].
  destruct (watchedPIDs (tracker σ) !! PID info) as [d|] eqn:Hl.
  - right; right; left. eauto.
  - destruct kres as [e|]; simpl.
    + right; right; right; left. eauto 10.
    + right; right; right; right. done.
Qed.

Lemma ctx_done_step e σ :
  ctx_done (tracker σ) = true → ctx_done (tracker (step e σ)) = true.
Proof.
  intros Hc. destruct e as [info kres| |w|w|c|res|p]; simpl; try done.
  - destruct (NewWatcher_cases info kres σ) as
      [[_ ->]|[(_ & _ & ->)|[(_ & Hf & _)|[(_ & Hf & _)|(_ & Hf & _)]]]];
      simpl; congruence.
  - unfold Watcher_Close. by destruct (watchers σ !! w).
  - unfold IsAlive_step. repeat case_match; done.
  - pose proof (step_EKevent_frame res σ) as (_ & _ & _ & _ & _ & Hd & _).
    simpl in Hd. congruence.
Qed.

Lemma ctx_done_run tr σ :
  ctx_done (tracker σ) = true → ctx_done (tracker (run tr σ)) = true.
Proof.
  revert σ. induction tr as [|e tr IH]; intros σ Hc; [done|].
  apply IH. by apply ctx_done_step.
Qed.

(** ** Calls of [IsAlive] *)

Lemma IsAlive_call_lookup w σ :
  calls (snd (IsAlive_call w σ)) !! length (calls σ)
  = Some {| call_w := w; call_pc := pc_lock |}.
Proof. simpl. by rewrite lookup_app_r, Nat.sub_diag. Qed.

Lemma set_pc_lookup c cl pc σ :
  calls σ !! c = Some cl →
  calls (set_pc c cl pc σ) !! c = Some {| call_w := call_w cl; call_pc := pc |}.
Proof.
  intros Hc. simpl. apply list_lookup_insert_eq. by eapply lookup_lt_Some.
Qed.

Lemma set_pc_lookup_ne c c' cl pc σ :
  c ≠ c' → calls (set_pc c cl pc σ) !! c' = calls σ !! c'.
Proof. intros Hne. simpl. by apply list_lookup_insert_ne. Qed.

Lemma IsAlive_step_at c σ w pc b :
  calls σ !! c = Some {| call_w := w; call_pc := pc |} →
  watchers σ !! w = Some b →
  IsAlive_step c σ =
    let cl := {| call_w := w; call_pc := pc |} in
    match pc with
    | pc_lock =>
        if closed b then set_pc c cl (pc_return (Some NotWatchedError)) σ
        else set_pc c cl pc_sleep σ
    | pc_sleep =>
        set_pc c cl pc_select (set_sleeps (sleeps σ ++ [(c, safetyDelay)]) σ)
    | pc_select =>
        if chan_fired (done b) (chans σ)
        then set_pc c cl (pc_return (Some CallerExitedError)) σ
        else set_pc c cl (pc_return None) σ
    | pc_return _ => σ
    end.
Proof. intros Hc Hw. unfold IsAlive_step. by rewrite Hc; simpl; rewrite Hw. Qed.

Lemma IsAlive_step_returned c σ w r :
  calls σ !! c = Some {| call_w := w; call_pc := pc_return r |} →
  IsAlive_step c σ = σ.
Proof.
  intros Hc. unfold IsAlive_step. rewrite Hc; simpl.
  by destruct (watchers σ !! w).
Qed.

(** A closed watcher answers at the first step of the call. *)
Lemma IsAlive_closed w b σ :
  watchers σ !! w = Some b → closed b = true →
  let c := length (calls σ) in
  let σ1 := IsAlive_step c (snd (IsAlive_call w σ)) in
  IsAlive_result c σ1 = Some (Some NotWatchedError) ∧
  IsAlive w σ = (Some (Some NotWatchedError), σ1) ∧
  sleeps σ1 = sleeps σ.
Proof.
  intros Hw Hcl c σ1.
  pose proof (IsAlive_call_lookup w σ) as Hc. fold c in Hc.
  assert (Hs : σ1 = set_pc c {| call_w := w; call_pc := pc_lock |}
                       (pc_return (Some NotWatchedError)) (snd (IsAlive_call w σ))).
  { unfold σ1. erewrite IsAlive_step_at; [|exact Hc|exact Hw]. simpl.
    by rewrite Hcl. }
  assert (Hl : calls σ1 !! c
               = Some {| call_w := w; call_pc := pc_return (Some NotWatchedError) |}).
  { rewrite Hs. by rewrite (set_pc_lookup _ _ _ _ Hc). }
  assert (Hr : IsAlive_result c σ1 = Some (Some NotWatchedError)).
  { unfold IsAlive_result. by rewrite Hl. }
  split; [exact Hr|]. split.
  - unfold IsAlive. simpl. fold c.
    change (IsAlive_step c (set_calls _ σ)) with σ1.
    rewrite !(IsAlive_step_returned _ _ _ _ Hl). by rewrite Hr.
  - by rewrite Hs.
Qed.

(** ** Watchers are never changed except by their own [Close] *)

Lemma watcher_step e σ w b :
  watchers σ !! w = Some b →
  ∃ b', watchers (step e σ) !! w = Some b' ∧ done b' = done b ∧
        pid b' = pid b ∧ (closed b = true → closed b' = true).
Proof.
  intros Hw.
  assert (Hsame : ∀ l : list bsdWatcher, l = watchers σ →
            ∃ b', l !! w = Some b' ∧ done b' = done b ∧
                  pid b' = pid b ∧ (closed b = true → closed b' = true)).
  { intros l ->. eauto. }
  assert (Happ : ∀ (l : list bsdWatcher) x, l = watchers σ ++ [x] →
            ∃ b', l !! w = Some b' ∧ done b' = done b ∧
                  pid b' = pid b ∧ (closed b = true → closed b' = true)).
  { intros l x ->. exists b. split; [|done].
    rewrite lookup_app_l; [done|]. by eapply lookup_lt_Some. }
  destruct e as [info kres| |w'|w'|c|res|p];
    [| by apply Hsame | | by apply Hsame | | | by apply Hsame].
  - simpl. destruct (NewWatcher_cases info kres σ) as
      [[_ ->]|[(_ & _ & ->)|[(_ & _ & d & _ & ->)|[(_ & _ & _ & e & _ & ->)
        |(_ & _ & _ & _ & ->)]]]]; simpl;
      first [by apply Hsame | by eapply Happ].
  - simpl. unfold Watcher_Close. destruct (watchers σ !! w') as [b0|] eqn:Hw'; [|eauto].
    simpl. destruct (decide (w' = w)) as [->|Hne].
    + exists (set_closed b0). rewrite list_lookup_insert_eq by (by eapply lookup_lt_Some).
      simplify_eq. done.
    + exists b. by rewrite list_lookup_insert_ne.
  - apply Hsame. simpl. unfold IsAlive_step. repeat case_match; done.
  - apply Hsame. by destruct (step_EKevent_frame res σ) as (-> & _).
Qed.

Lemma watcher_run tr σ w b :
  watchers σ !! w = Some b →
  ∃ b', watchers (run tr σ) !! w = Some b' ∧ done b' = done b ∧
        pid b' = pid b ∧ (closed b = true → closed b' = true).
Proof.
  revert σ b. induction tr as [|e tr IH]; intros σ b Hw; [eauto|].
  destruct (watcher_step e σ w b Hw) as (b1 & Hw1 & Hd1 & Hp1 & Hc1).
  destruct (IH (step e σ) b1 Hw1) as (b2 & Hw2 & Hd2 & Hp2 & Hc2).
  exists b2. repeat split; [done|congruence|congruence|auto].
Qed.

Lemma Watcher_Close_closed w b σ :
  watchers σ !! w = Some b →
  watchers (Watcher_Close w σ) !! w = Some (set_closed b).
Proof.
  intros Hw. unfold Watcher_Close. rewrite Hw. simpl.
  apply list_lookup_insert_eq. by eapply lookup_lt_Some.
Qed.

(** ** The steps of the other goroutines leave a call alone *)

Lemma others_step_calls c e σ cl :
  is_step_of c e = false → calls σ !! c = Some cl →
  calls (step e σ) !! c = Some cl.
Proof.
  intros He Hc.
  destruct e as [info kres| |w'|w'|c'|res|p]; [|done| | | | |done].
  - simpl. destruct (NewWatcher_cases info kres σ) as
      [[_ ->]|[(_ & _ & ->)|[(_ & _ & d & _ & ->)|[(_ & _ & _ & e & _ & ->)
        |(_ & _ & _ & _ & ->)]]]]; done.
  - simpl. unfold Watcher_Close. by destruct (watchers σ !! w').
  - simpl. rewrite lookup_app_l; [done|]. by eapply lookup_lt_Some.
  - simpl in *. apply bool_decide_eq_false in He.
    unfold IsAlive_step. repeat case_match; try done;
      by rewrite set_pc_lookup_ne.
  - by destruct (step_EKevent_frame res σ) as (_ & -> & _).
Qed.

Lemma others_step_sleeps c e σ :
  is_step_of c e = false → sleeps_of c (step e σ) = sleeps_of c σ.
Proof.
  intros He. unfold sleeps_of.
  destruct e as [info kres| |w'|w'|c'|res|p]; [|done| |done| | |done].
  - simpl. destruct (NewWatcher_cases info kres σ) as
      [[_ ->]|[(_ & _ & ->)|[(_ & _ & d & _ & ->)|[(_ & _ & _ & e & _ & ->)
        |(_ & _ & _ & _ & ->)]]]]; done.
  - simpl. unfold Watcher_Close. by destruct (watchers σ !! w').
  - simpl in *. apply bool_decide_eq_false in He.
    unfold IsAlive_step. repeat case_match; try done. simpl.
    rewrite filter_app, filter_cons_False by (simpl; congruence).
    by rewrite filter_nil, app_nil_r.
  - by destruct (step_EKevent_frame res σ) as (_ & _ & _ & -> & _).
Qed.

Lemma others_run c tr σ cl :
  others c tr = true → calls σ !! c = Some cl →
  calls (run tr σ) !! c = Some cl ∧ sleeps_of c (run tr σ) = sleeps_of c σ.
Proof.
  revert σ. induction tr as [|e tr IH]; intros σ Ho Hc; [done|].
  simpl in Ho. apply andb_true_iff in Ho as [He Ho].
  apply negb_true_iff in He.
  destruct (IH (step e σ) Ho (others_step_calls _ _ _ _ He Hc)) as [IH1 IH2].
  split; [exact IH1|]. simpl in *. rewrite IH2. by apply others_step_sleeps.
Qed.

(** ** A call on a watcher that is not closed *)

Lemma IsAlive_step_chans c σ : chans (IsAlive_step c σ) = chans σ.
Proof. unfold IsAlive_step. repeat case_match; done. Qed.


Lemma sleeps_of_snoc c σ l :
  sleeps σ = l ++ [(c, safetyDelay)] →
  sleeps_of c σ = (snd <$> filter (λ x, fst x = c) l) ++ [safetyDelay].
Proof.
  intros Hs. unfold sleeps_of. rewrite Hs, filter_app, fmap_app.
  by rewrite filter_cons_True.
Qed.

Lemma IsAlive_open_interleaved c w b σ env1 env2 :
  calls σ !! c = Some {| call_w := w; call_pc := pc_lock |} →
  watchers σ !! w = Some b → closed b = false →
  others c env1 = true → others c env2 = true →
  let σ1 := IsAlive_step c σ in
  let σ2 := run env1 σ1 in
  let σ3 := IsAlive_step c σ2 in
  let σ4 := run env2 σ3 in
  let σ5 := IsAlive_step c σ4 in
  (IsAlive_result c σ2 = None ∧ sleeps_of c σ2 = sleeps_of c σ) ∧
  sleeps σ3 = sleeps σ2 ++ [(c, safetyDelay)] ∧
  (IsAlive_result c σ4 = None ∧
   sleeps_of c σ4 = sleeps_of c σ ++ [safetyDelay]) ∧
  IsAlive_result c σ5
  = Some (if chan_fired (done b) (chans σ4) then Some CallerExitedError else None) ∧
  sleeps_of c σ5 = sleeps_of c σ ++ [safetyDelay] ∧
  sleeps σ1 = sleeps σ ∧ sleeps σ5 = sleeps σ4.
Proof.
  intros Hc Hw Hcl Ho1 Ho2 σ1 σ2 σ3 σ4 σ5.
  (* the locked read of the closed bit *)
  assert (E1 : σ1 = set_pc c {| call_w := w; call_pc := pc_lock |} pc_sleep σ).
  { unfold σ1. rewrite (IsAlive_step_at _ _ _ _ _ Hc Hw). simpl. by rewrite Hcl. }
  assert (C1 : calls σ1 !! c = Some {| call_w := w; call_pc := pc_sleep |}).
  { rewrite E1. by rewrite (set_pc_lookup _ _ _ _ Hc). }
  assert (W1 : watchers σ1 !! w = Some b) by (by rewrite E1).
  (* the others run *)
  destruct (others_run c env1 σ1 _ Ho1 C1) as [C2 S2]. fold σ2 in C2, S2.
  destruct (watcher_run env1 σ1 w b W1) as (b2 & W2 & D2 & _). fold σ2 in W2.
  (* the sleep *)
  assert (E3 : σ3 = set_pc c {| call_w := w; call_pc := pc_sleep |} pc_select
                      (set_sleeps (sleeps σ2 ++ [(c, safetyDelay)]) σ2)).
  { unfold σ3. by rewrite (IsAlive_step_at _ _ _ _ _ C2 W2). }
  assert (C3 : calls σ3 !! c = Some {| call_w := w; call_pc := pc_select |}).
  { rewrite E3. by apply (set_pc_lookup c {| call_w := w; call_pc := pc_sleep |}). }
  assert (W3 : watchers σ3 !! w = Some b2) by (by rewrite E3).
  assert (S3 : sleeps σ3 = sleeps σ2 ++ [(c, safetyDelay)]) by (by rewrite E3).
  (* the others run *)
  destruct (others_run c env2 σ3 _ Ho2 C3) as [C4 S4]. fold σ4 in C4, S4.
  destruct (watcher_run env2 σ3 w b2 W3) as (b4 & W4 & D4 & _). fold σ4 in W4.
  assert (S4' : sleeps_of c σ4 = sleeps_of c σ ++ [safetyDelay]).
  { rewrite S4, (sleeps_of_snoc _ _ _ S3). fold (sleeps_of c σ2).
    rewrite S2. by rewrite E1. }
  (* the select *)
  assert (E5 : σ5 = set_pc c {| call_w := w; call_pc := pc_select |}
                      (pc_return (if chan_fired (done b) (chans σ4)
                                  then Some CallerExitedError else None)) σ4).
  { unfold σ5. rewrite (IsAlive_step_at _ _ _ _ _ C4 W4). simpl.
    rewrite D4, D2. by destruct (chan_fired (done b) (chans σ4)). }
  repeat split.
  - unfold IsAlive_result. by rewrite C2.
  - rewrite S2. by rewrite E1.
  - exact S3.
  - unfold IsAlive_result. by rewrite C4.
  - exact S4'.
  - unfold IsAlive_result. rewrite E5. by rewrite (set_pc_lookup _ _ _ _ C4).
  - rewrite <- S4'. by rewrite E5.
  - by rewrite E1.
  - by rewrite E5.
Qed.

(** The same with nothing scheduled in between: the function [IsAlive]. *)
Lemma IsAlive_open w b σ :
  watchers σ !! w = Some b → closed b = false →
  fst (IsAlive w σ)
  = Some (if chan_fired (done b) (chans σ) then Some CallerExitedError else None) ∧
  sleeps (snd (IsAlive w σ)) = sleeps σ ++ [(length (calls σ), safetyDelay)].
Proof.
  intros Hw Hcl.
  pose proof (IsAlive_call_lookup w σ) as Hc.
  destruct (IsAlive_open_interleaved (length (calls σ)) w b
              (snd (IsAlive_call w σ)) [] [] Hc Hw Hcl eq_refl eq_refl)
    as (_ & Hs & _ & Hr & _ & Hs1 & Hs5).
  unfold IsAlive. simpl in *. split.
  - rewrite Hr. by rewrite !IsAlive_step_chans.
  - by rewrite Hs5, Hs, Hs1.
Qed.

(** ** Once the dispatch loop has ended it stays ended *)

Lemma loop_ended_step e σ :
  loop σ ≠ LoopRunning → loop (step e σ) = loop σ.
Proof.
  intros Hl. destruct e as [info kres| |w'|w'|c'|res|p]; [|done| |done| | |done].
  - simpl. destruct (NewWatcher_cases info kres σ) as
      [[_ ->]|[(_ & _ & ->)|[(_ & _ & d & _ & ->)|[(_ & _ & _ & e & _ & ->)
        |(_ & _ & _ & _ & ->)]]]]; done.
  - simpl. unfold Watcher_Close. by destruct (watchers σ !! w').
  - simpl. unfold IsAlive_step. repeat case_match; done.
  - simpl. destruct (loop σ) eqn:E; [congruence|done|done].
Qed.

Lemma loop_ended_run tr σ :
  loop σ ≠ LoopRunning → loop (run tr σ) = loop σ.
Proof.
  revert σ. induction tr as [|e tr IH]; intros σ Hl; [done|].
  change (run (e :: tr) σ) with (run tr (step e σ)).
  rewrite IH; rewrite loop_ended_step; done.
Qed.

(** ** The invariant of the registry *)

Lemma wf_newTracker fd σ : newTracker (inr fd) = inr σ → wf σ.
Proof.
  intros Hn. unfold newTracker in Hn. simplify_eq. split; simpl.
  - intros p d Hl. by apply lookup_empty_Some in Hl.
  - intros p q d Hl. by apply lookup_empty_Some in Hl.
  - intros w b Hl. by rewrite lookup_nil in Hl.
Qed.

(** One event of a batch, on a well-formed world: no panic, and what
    becomes of the registry and of the channels. *)
Lemma handle_kevent_spec ev σ :
  wf σ →
  ∃ σ', handle_kevent ev σ = Some σ' ∧ wf σ' ∧
    (∀ p, watchedPIDs (tracker σ') !! p
          = if exit_for p ev then None else watchedPIDs (tracker σ) !! p) ∧
    (∀ d, chans σ !! d = Some true → chans σ' !! d = Some true) ∧
    (∀ p d, exit_for p ev = true → watchedPIDs (tracker σ) !! p = Some d →
            chans σ' !! d = Some true) ∧
    (∀ d, chans σ !! d = Some false → chans σ' !! d = Some true →
          ∃ p, exit_for p ev = true ∧ watchedPIDs (tracker σ) !! p = Some d).
Proof.
  intros Hwf.
  assert (Hid : exit_for_none ev σ →
    ∃ σ', Some σ = Some σ' ∧ wf σ' ∧
    (∀ p, watchedPIDs (tracker σ') !! p
          = if exit_for p ev then None else watchedPIDs (tracker σ) !! p) ∧
    (∀ d, chans σ !! d = Some true → chans σ' !! d = Some true) ∧
    (∀ p d, exit_for p ev = true → watchedPIDs (tracker σ) !! p = Some d →
            chans σ' !! d = Some true) ∧
    (∀ d, chans σ !! d = Some false → chans σ' !! d = Some true →
          ∃ p, exit_for p ev = true ∧ watchedPIDs (tracker σ) !! p = Some d)).
  { intros Hn. exists σ. repeat split; try apply Hwf; try done.
    - intros p. destruct (exit_for p ev) eqn:He; [|done]. by apply Hn.
    - intros p d He Hl. apply Hn in He. congruence.
    - intros d ? ?. congruence. }
  unfold handle_kevent, exit_for_none, exit_for in *.
  destruct (is_exit_event ev); [|apply Hid; done].
  destruct (CheckedCast_int (Ident ev)) as [q|] eqn:Hcast;
    [|apply Hid; intros p Hp; apply andb_true_iff in Hp as [_ Hp];
      by apply bool_decide_eq_true in Hp].
  destruct (watchedPIDs (tracker σ) !! q) as [dq|] eqn:Hq;
    [|apply Hid; intros p Hp; apply andb_true_iff in Hp as [_ Hp];
      apply bool_decide_eq_true in Hp; congruence].
  clear Hid.
  pose proof (wf_open _ Hwf _ _ Hq) as Hopen.
  unfold close_chan. rewrite Hopen.
  eexists. split; [done|]. simpl.
  assert (Hlen : (dq < length (chans σ))%nat) by (by eapply lookup_lt_Some).
  repeat split; simpl.
  - intros p d Hl. apply lookup_delete_Some in Hl as [Hne Hl].
    rewrite list_lookup_insert_ne; [by eapply wf_open|].
    intros ->. by pose proof (wf_inj _ Hwf _ _ _ Hq Hl).
  - intros p p' d Hl Hl'. apply lookup_delete_Some in Hl as [_ Hl].
    apply lookup_delete_Some in Hl' as [_ Hl']. by eapply wf_inj.
  - intros w b Hw. rewrite length_insert. by eapply wf_done.
  - intros p. case_bool_decide as Hp; simplify_eq.
    + apply lookup_delete_eq.
    + apply lookup_delete_ne. congruence.
  - intros d Hd. destruct (decide (dq = d)) as [->|Hne];
      [by apply list_lookup_insert_eq|].
    by rewrite list_lookup_insert_ne.
  - intros p d Hp Hl. apply bool_decide_eq_true in Hp. simplify_eq.
    by apply list_lookup_insert_eq.
  - intros d Hd Hd'. destruct (decide (dq = d)) as [->|Hne].
    + exists q. by rewrite bool_decide_eq_true.
    + rewrite list_lookup_insert_ne in Hd' by done. congruence.
Qed.

(** A whole batch. *)
Lemma handle_kevents_spec evs σ :
  wf σ →
  ∃ σ', handle_kevents evs σ = (None, σ') ∧ wf σ' ∧
    (∀ p, watchedPIDs (tracker σ') !! p
          = if existsb (exit_for p) evs then None
            else watchedPIDs (tracker σ) !! p) ∧
    (∀ d, chans σ !! d = Some true → chans σ' !! d = Some true) ∧
    (∀ p d, existsb (exit_for p) evs = true →
            watchedPIDs (tracker σ) !! p = Some d → chans σ' !! d = Some true) ∧
    (∀ d, chans σ !! d = Some false → chans σ' !! d = Some true →
          ∃ p, existsb (exit_for p) evs = true ∧
               watchedPIDs (tracker σ) !! p = Some d).
Proof.
  revert σ. induction evs as [|ev evs IH]; intros σ Hwf.
  - exists σ. simpl. repeat split; try apply Hwf; try done.
    intros d ? ?. congruence.
  - destruct (handle_kevent_spec ev σ Hwf)
      as (σ1 & Hk & Hwf1 & Hreg1 & Hcl1 & Hex1 & Hfire1).
    destruct (IH σ1 Hwf1) as (σ' & Hks & Hwf' & Hreg & Hcl & Hex & Hfire).
    exists σ'. simpl. rewrite Hk. split; [exact Hks|]. split; [exact Hwf'|].
    repeat split.
    + intros p. rewrite Hreg, Hreg1.
      by destruct (exit_for p ev), (existsb (exit_for p) evs).
    + intros d Hd. auto.
    + intros p d Hp Hl. destruct (exit_for p ev) eqn:He.
      * apply Hcl. by eapply Hex1.
      * simpl in Hp. apply (Hex p d Hp). by rewrite Hreg1, He.
    + intros d Hd Hd'.
      assert (Hlen : length (chans σ1) = length (chans σ))
        by (by destruct (handle_kevent_frame _ _ _ Hk) as (_&_&_&_&_&_&?)).
      destruct (chans σ1 !! d) as [[|]|] eqn:Hd1.
      * destruct (Hfire1 d Hd Hd1) as (p & He & Hl). exists p.
        by rewrite He.
      * destruct (Hfire d Hd1 Hd') as (p & He & Hl). exists p.
        rewrite Hreg1 in Hl. destruct (exit_for p ev); [done|].
        by rewrite He.
      * apply lookup_ge_None in Hd1. apply lookup_lt_Some in Hd. lia.
Qed.

(** What a step does to the registry and to the channels: nothing, or
    it is a [NewWatcher] that registers a PID with a new channel, or it
    is the dispatch loop handling a batch. *)
Lemma step_registry_chans e σ :
  wf σ →
  let σ' := step e σ in
  (watchedPIDs (tracker σ') = watchedPIDs (tracker σ) ∧ chans σ' = chans σ)
  ∨ (∃ info, e = ENewWatcher info None ∧
        watchedPIDs (tracker σ) !! PID info = None ∧
        watchedPIDs (tracker σ')
        = <[PID info := length (chans σ)]> (watchedPIDs (tracker σ)) ∧
        chans σ' = chans σ ++ [false])
  ∨ (∃ evs, e = EKevent (inr evs) ∧ loop σ = LoopRunning ∧
        (∀ p, watchedPIDs (tracker σ') !! p
              = if existsb (exit_for p) evs then None
                else watchedPIDs (tracker σ) !! p) ∧
        (∀ d, chans σ !! d = Some true → chans σ' !! d = Some true) ∧
        (∀ p d, existsb (exit_for p) evs = true →
                watchedPIDs (tracker σ) !! p = Some d →
                chans σ' !! d = Some true) ∧
        (∀ d, chans σ !! d = Some false → chans σ' !! d = Some true →
              ∃ p, existsb (exit_for p) evs = true ∧
                   watchedPIDs (tracker σ) !! p = Some d)).
Proof.
  intros Hwf σ'. unfold σ'.
  destruct e as [info kres| |w'|w'|c'|res|p];
    [| by left | | by left | | | by left].
  - simpl. destruct (NewWatcher_cases info kres σ) as
      [[_ ->]|[(_ & _ & ->)|[(_ & _ & d & _ & ->)|[(_ & _ & _ & e & _ & ->)
        |(_ & _ & Hl & -> & ->)]]]]; simpl; try by left.
    right; left. eauto.
  - left. simpl. unfold Watcher_Close. by destruct (watchers σ !! w').
  - left. simpl. unfold IsAlive_step. repeat case_match; done.
  - simpl. destruct (loop σ) eqn:Hl; [|by left|by left].
    destruct res as [err|evs]; simpl.
    + left. destruct (ctx_done (tracker σ)); [done|].
      by destruct (is_EINTR err).
    + destruct (handle_kevents_spec evs σ Hwf) as (σ1 & Hk & _ & Hspec).
      right; right. exists evs. rewrite Hk. simpl. done.
Qed.

Section Step.
Variables (e : Event) (σ : World).
Hypothesis Hwf : wf σ.

Lemma chan_closed_step d :
  chans σ !! d = Some true → chans (step e σ) !! d = Some true.
Proof.
  intros Hd.
  destruct (step_registry_chans e σ Hwf)
    as [[_ ->]|[(info & _ & _ & _ & ->)|(evs & _ & _ & _ & Hcl & _)]]; [done| |auto].
  rewrite lookup_app_l; [done|]. by eapply lookup_lt_Some.
Qed.

(** An entry goes away only when the loop handles an exit event for
    its PID, and then its channel is closed. *)
Lemma registry_step_Some p d :
  watchedPIDs (tracker σ) !! p = Some d →
  watchedPIDs (tracker (step e σ)) !! p = Some d
  ∨ (delivers_exit p e = true ∧ loop σ = LoopRunning ∧
     watchedPIDs (tracker (step e σ)) !! p = None ∧
     chans (step e σ) !! d = Some true).
Proof.
  intros Hp.
  destruct (step_registry_chans e σ Hwf)
    as [[Hr _]|[(info & -> & Hn & Hr & _)|(evs & -> & Hl & Hr & _ & Hex & _)]].
  - left. by rewrite Hr.
  - left. rewrite Hr. rewrite lookup_insert_ne; [done|]. congruence.
  - rewrite Hr. simpl delivers_exit.
    destruct (existsb (exit_for p) evs) eqn:He.
    + right. repeat split; eauto.
    + left. done.
Qed.

(** When the loop handles an exit event for a registered PID, the
    entry's channel is closed and the entry is deleted. *)
Lemma exit_step p d :
  delivers_exit p e = true → loop σ = LoopRunning →
  watchedPIDs (tracker σ) !! p = Some d →
  watchedPIDs (tracker (step e σ)) !! p = None ∧
  chans (step e σ) !! d = Some true.
Proof.
  intros He Hl Hp.
  destruct e as [| | | | |[|evs]|]; try done. simpl in He.
  destruct (step_registry_chans (EKevent (inr evs)) σ Hwf)
    as [[Hr Hc]|[(info & ? & _)|(evs' & ? & _ & Hr & _ & Hex & _)]];
    simplify_eq.
  - simpl in Hr, Hc. rewrite Hl in Hr, Hc.
    destruct (handle_kevents_spec evs σ Hwf) as (σ1 & Hk & _ & Hs & _ & Hx & _).
    rewrite Hk in Hr, Hc. simpl in Hr, Hc.
    specialize (Hs p). rewrite He, Hr, Hp in Hs. done.
  - split; [|by eapply Hex]. by rewrite Hr, He.
Qed.

(** An entry appears only when [NewWatcher] registers its PID, with a
    channel made for it. *)
Lemma registry_step_None p :
  watchedPIDs (tracker σ) !! p = None →
  watchedPIDs (tracker (step e σ)) !! p = None
  ∨ (∃ info, e = ENewWatcher info None ∧ PID info = p ∧
        watchedPIDs (tracker (step e σ)) !! p = Some (length (chans σ)) ∧
        chans (step e σ) = chans σ ++ [false]).
Proof.
  intros Hp.
  destruct (step_registry_chans e σ Hwf)
    as [[Hr _]|[(info & -> & Hn & Hr & Hc)|(evs & -> & Hl & Hr & _)]].
  - left. by rewrite Hr.
  - rewrite Hr, Hc. destruct (decide (PID info = p)) as [<-|Hne].
    + right. exists info. by rewrite lookup_insert_eq.
    + left. by rewrite lookup_insert_ne.
  - left. rewrite Hr, Hp. by destruct (existsb (exit_for p) evs).
Qed.

(** A channel is closed only by the loop handling an exit event for the
    PID registered with it. *)
Lemma chan_fires_step d :
  chans σ !! d = Some false → chans (step e σ) !! d = Some true →
  ∃ p, delivers_exit p e = true ∧ loop σ = LoopRunning ∧
       watchedPIDs (tracker σ) !! p = Some d.
Proof.
  intros Hd Hd'.
  destruct (step_registry_chans e σ Hwf)
    as [[_ Hc]|[(info & _ & _ & _ & Hc)|(evs & -> & Hl & _ & _ & _ & Hf)]].
  - rewrite Hc in Hd'. congruence.
  - rewrite Hc, lookup_app_l in Hd' by (by eapply lookup_lt_Some). congruence.
  - destruct (Hf d Hd Hd') as (p & He & Hp). eauto.
Qed.

End Step.


Lemma wf_same σ σ' :
  watchedPIDs (tracker σ') = watchedPIDs (tracker σ) →
  chans σ' = chans σ → watchers σ' = watchers σ → wf σ → wf σ'.
Proof. intros E1 E2 E3 [? ? ?]. split; rewrite ?E1, ?E2, ?E3; done. Qed.

Lemma wf_step e σ : wf σ → wf (step e σ).
Proof.
  intros Hwf.
  destruct e as [info kres| |w'|w'|c'|res|p];
    [| by apply (wf_same σ) | | by apply (wf_same σ) | | | by apply (wf_same σ)].
  - simpl. destruct (NewWatcher_cases info kres σ) as
      [[_ ->]|[(_ & _ & ->)|[(_ & _ & d & Hl & ->)|[(_ & _ & _ & e & _ & ->)
        |(_ & _ & Hl & -> & ->)]]]]; simpl; try done.
    + split; simpl; try apply Hwf.
      intros w b Hw. apply lookup_app_Some in Hw as [Hw|[_ Hw]].
      * by eapply wf_done.
      * apply list_lookup_singleton_Some in Hw as [_ <-]. simpl.
        eapply lookup_lt_Some. by eapply wf_open.
    + by apply (wf_same σ).
    + assert (Hfresh : ∀ q d, watchedPIDs (tracker σ) !! q = Some d →
                              d ≠ length (chans σ)).
      { intros q d Hq ->. apply (wf_open _ Hwf) in Hq.
        apply lookup_lt_Some in Hq. lia. }
      split; simpl.
      * intros p d Hp. apply lookup_insert_Some in Hp as [[<- <-]|[Hne Hp]].
        -- by rewrite lookup_app_r, Nat.sub_diag.
        -- rewrite lookup_app_l; [by eapply wf_open|].
           eapply lookup_lt_Some. by eapply wf_open.
      * intros p q d Hp Hq.
        apply lookup_insert_Some in Hp as [[<- <-]|[Hne Hp]];
          apply lookup_insert_Some in Hq as [[<- Hd]|[Hne' Hq]]; try done.
        -- by apply Hfresh in Hq.
        -- symmetry in Hd. by apply Hfresh in Hp.
        -- by eapply wf_inj.
      * intros w b Hw. rewrite length_app. simpl.
        apply lookup_app_Some in Hw as [Hw|[_ Hw]].
        -- apply (wf_done _ Hwf) in Hw. lia.
        -- apply list_lookup_singleton_Some in Hw as [_ <-]. simpl. lia.
  - simpl. unfold Watcher_Close.
    destruct (watchers σ !! w') as [b0|] eqn:Hw'; [|done].
    split; simpl; try apply Hwf.
    intros w b Hw. destruct (decide (w' = w)) as [->|Hne].
    + rewrite list_lookup_insert_eq in Hw by (by eapply lookup_lt_Some).
      simplify_eq. simpl. by eapply wf_done.
    + rewrite list_lookup_insert_ne in Hw by done. by eapply wf_done.
  - simpl. unfold IsAlive_step.
    repeat case_match; try done; by apply (wf_same σ).
  - simpl. destruct (loop σ) eqn:Hl; [|done|done].
    destruct res as [err|evs]; simpl.
    + destruct (ctx_done (tracker σ)); [by apply (wf_same σ)|].
      destruct (is_EINTR err); by apply (wf_same σ).
    + destruct (handle_kevents_spec evs σ Hwf) as (σ1 & Hk & Hwf1 & _).
      rewrite Hk. by apply (wf_same σ1).
Qed.

Lemma wf_run tr σ : wf σ → wf (run tr σ).
Proof.
  revert σ. induction tr as [|e tr IH]; intros σ Hwf; [done|].
  apply IH. by apply wf_step.
Qed.

Lemma chan_closed_run tr σ d :
  wf σ → chans σ !! d = Some true → chans (run tr σ) !! d = Some true.
Proof.
  revert σ. induction tr as [|e tr IH]; intros σ Hwf Hd; [done|].
  apply IH; [by apply wf_step | by apply chan_closed_step].
Qed.

Lemma wf_reachable σ : reachable σ → wf σ.
Proof.
  intros (fd & tr & σ0 & Hn & ->). apply wf_run. by eapply wf_newTracker.
Qed.

(** ** Registrations and new watchers *)

Lemma registrations_attempts p σ :
  registrations p σ = filter (λ k, kc_err k = None) (attempts p σ).
Proof.
  unfold attempts, registrations.
  induction (kevent_changes σ) as [|k l IH]; [done|].
  rewrite !filter_cons. destruct (decide (kc_pid k = p)) as [Hk|Hk].
  - rewrite filter_cons. destruct (decide (kc_err k = None)) as [Hn|Hn].
    + rewrite decide_True by done. by rewrite IH.
    + rewrite decide_False by (by intros [_ ?]). done.
  - rewrite decide_False by (by intros [? _]). done.
Qed.


(** A watcher in the store after a step was there before, with the
    same channel and PID, or [NewWatcher] has just made it, and then the
    registry maps its PID to its channel. *)
Lemma new_watcher_step e σ w b' :
  wf σ → watchers (step e σ) !! w = Some b' →
  (∃ b, watchers σ !! w = Some b ∧ done b = done b' ∧ pid b = pid b')
  ∨ (w = length (watchers σ) ∧
     watchedPIDs (tracker (step e σ)) !! pid b' = Some (done b')).
Proof.
  intros Hwf Hw.
  assert (Hsame : watchers (step e σ) = watchers σ →
    ∃ b, watchers σ !! w = Some b ∧ done b = done b' ∧ pid b = pid b').
  { intros Heq. rewrite Heq in Hw. eauto. }
  destruct e as [info kres| |w'|w'|c'|res|q];
    [| by left; apply Hsame | | by left; apply Hsame | |
     | by left; apply Hsame].
  - simpl in *. destruct (NewWatcher_cases info kres σ) as
      [[_ Hr]|[(_ & _ & Hr)|[(_ & _ & d & Hl & Hr)|[(_ & _ & _ & e & _ & Hr)
        |(_ & _ & Hl & -> & Hr)]]]]; rewrite Hr in Hw |- *; simpl in *;
      try (left; eauto; fail).
    + apply lookup_app_Some in Hw as [Hw|[Hge Hw]]; [left; eauto|].
      apply list_lookup_singleton_Some in Hw as [Hz <-]. right. simpl.
      split; [lia|done].
    + apply lookup_app_Some in Hw as [Hw|[Hge Hw]]; [left; eauto|].
      apply list_lookup_singleton_Some in Hw as [Hz <-]. right. simpl.
      split; [lia|]. by rewrite lookup_insert_eq.
  - left. simpl in Hw. unfold Watcher_Close in Hw.
    destruct (watchers σ !! w') as [b0|] eqn:Hw'; [|eauto]. simpl in Hw.
    destruct (decide (w' = w)) as [->|Hne].
    + rewrite list_lookup_insert_eq in Hw by (by eapply lookup_lt_Some).
      simplify_eq. eauto.
    + rewrite list_lookup_insert_ne in Hw by done. eauto.
  - left. apply Hsame. simpl. unfold IsAlive_step. repeat case_match; done.
  - left. apply Hsame. by destruct (step_EKevent_frame res σ) as (-> & _).
Qed.



(** With no entry for [p], a step leaves the calls to the kernel for [p]
    as they are, or it is a [NewWatcher] for [p]: refused by the kernel,
    and there is still no entry, or accepted, and there is an entry and a
    watcher on its channel. *)
Lemma attempts_step_None p e σ :
  wf σ → watchedPIDs (tracker σ) !! p = None →
  let σ' := step e σ in
  (attempts p σ' = attempts p σ ∧ watchedPIDs (tracker σ') !! p = None)
  ∨ (∃ k, attempts p σ' = attempts p σ ++ [k] ∧ kc_err k ≠ None ∧
          watchedPIDs (tracker σ') !! p = None)
  ∨ (∃ k, attempts p σ' = attempts p σ ++ [k] ∧ kc_err k = None ∧
          watchedPIDs (tracker σ') !! p = Some (length (chans σ)) ∧
          watchers σ'
          = watchers σ ++ [{| closed := false; done := length (chans σ); pid := p |}]).
Proof.
  intros Hwf Hp σ'. subst σ'.
  assert (Hother : attempts p (step e σ) = attempts p σ →
            (∀ info, e ≠ ENewWatcher info None) →
            attempts p (step e σ) = attempts p σ ∧
            watchedPIDs (tracker (step e σ)) !! p = None).
  { intros Ha Hne. split; [done|].
    destruct (registry_step_None e σ Hwf p Hp) as [?|(info & ? & _)]; [done|].
    by destruct (Hne info). }
  destruct e as [info kres| |w'|w'|c'|res|q];
    [| by left; apply Hother | | by left; apply Hother | |
     | by left; apply Hother].
  - clear Hother. simpl.
    destruct (NewWatcher_cases info kres σ) as
      [[_ ->]|[(_ & _ & ->)|[(_ & _ & d & Hl & ->)|[(_ & _ & Hl & e & -> & ->)
        |(_ & _ & Hl & -> & ->)]]]]; simpl; try by left.
    + destruct (decide (PID info = p)) as [<-|Hne].
      * right; left. eexists. unfold attempts. simpl.
        rewrite filter_app, filter_cons_True by done. done.
      * left. unfold attempts. simpl.
        by rewrite filter_app, filter_cons_False, filter_nil, app_nil_r.
    + destruct (decide (PID info = p)) as [<-|Hne].
      * right; right. eexists. unfold attempts. simpl.
        rewrite filter_app, filter_cons_True by done.
        by rewrite lookup_insert_eq.
      * left. unfold attempts. simpl.
        rewrite filter_app, filter_cons_False, filter_nil, app_nil_r by done.
        by rewrite lookup_insert_ne.
  - left. apply Hother; [|done]. simpl. unfold Watcher_Close.
    by destruct (watchers σ !! w').
  - left. apply Hother; [|done]. simpl. unfold IsAlive_step.
    repeat case_match; done.
  - left. apply Hother; [|done]. unfold attempts.
    by destruct (step_EKevent_frame res σ) as (_ & _ & -> & _).
Qed.

(** ** While a process keeps running *)





(** ** A signal that is bound to fire *)

Lemma fired_or_tracked_step p d e σ :
  wf σ → fired_or_tracked p d σ → fired_or_tracked p d (step e σ).
Proof.
  intros Hwf [Hd|Hp].
  - left. by apply chan_closed_step.
  - destruct (registry_step_Some e σ Hwf p d Hp) as [?|(_ & _ & _ & ?)];
      [by right|by left].
Qed.

Lemma fired_or_tracked_run p d tr σ :
  wf σ → fired_or_tracked p d σ → fired_or_tracked p d (run tr σ).
Proof.
  revert σ. induction tr as [|e tr IH]; intros σ Hwf Hf; [done|].
  apply IH; [by apply wf_step | by apply fired_or_tracked_step].
Qed.

(** A successful [NewWatcher]: the watcher it made and the entry of the
    registry hold the same channel. *)
Lemma NewWatcher_ok info kres σ w :
  fst (NewWatcher info kres σ) = inr w →
  ∃ d, watchers (snd (NewWatcher info kres σ)) !! w
       = Some {| closed := false; done := d; pid := PID info |} ∧
       watchedPIDs (tracker (snd (NewWatcher info kres σ))) !! PID info = Some d.
Proof.
  destruct (NewWatcher_cases info kres σ) as
    [[_ ->]|[(_ & _ & ->)|[(_ & _ & d & Hl & ->)|[(_ & _ & _ & e & _ & ->)
      |(_ & _ & Hl & -> & ->)]]]]; simpl; intros Hw; simplify_eq.
  - exists d. by rewrite lookup_app_r, Nat.sub_diag.
  - exists (length (chans σ)).
    by rewrite lookup_app_r, Nat.sub_diag, lookup_insert_eq.
Qed.

End Proofs.

(** * The claims *)

Section Claims.
Context `{Platform}.

(** C1: a call of [IsAlive] on a watcher that is not closed when the
    call reads the closed bit has not answered before it sleeps, sleeps
    once, for [safetyDelay] (250 ms), and then answers by the state of
    the watcher's exit signal at the moment of its check:
    [CallerExitedError] if the signal has fired, nil if it has not;
    whatever the other goroutines do in between. *)
Theorem IsAlive_sleeps_then_checks c w b σ env1 env2 :
  calls σ !! c = Some {| call_w := w; call_pc := pc_lock |} →
  watchers σ !! w = Some b → closed b = false →
  others c env1 = true → others c env2 = true →
  let σ2 := run env1 (IsAlive_step c σ) in
  let σ3 := IsAlive_step c σ2 in
  let σ4 := run env2 σ3 in
  let σ5 := IsAlive_step c σ4 in
  safetyDelay = 250000000%Z ∧
  (IsAlive_result c σ2 = None ∧ sleeps_of c σ2 = sleeps_of c σ) ∧
  sleeps σ3 = sleeps σ2 ++ [(c, safetyDelay)] ∧
  IsAlive_result c σ4 = None ∧
  IsAlive_result c σ5
  = Some (if chan_fired (done b) (chans σ4) then Some CallerExitedError else None) ∧
  sleeps_of c σ5 = sleeps_of c σ ++ [safetyDelay].
Proof.
  intros Hc Hw Hcl Ho1 Ho2 σ2 σ3 σ4 σ5.
  destruct (IsAlive_open_interleaved c w b σ env1 env2 Hc Hw Hcl Ho1 Ho2)
    as (H2 & H3 & [H4 _] & H5 & H6 & _).
  by repeat split; try apply H2.
Qed.

(** C2: after [Watcher.Close], whatever happens next (exit events
    delivered or not, the process running or not), the watcher stays
    closed and [IsAlive] returns [NotWatchedError]. *)
Theorem IsAlive_after_Close w b σ tr :
  watchers σ !! w = Some b →
  let σ' := run tr (Watcher_Close w σ) in
  (∃ b', watchers σ' !! w = Some b' ∧ closed b' = true) ∧
  fst (IsAlive w σ') = Some (Some NotWatchedError).
Proof.
  intros Hw σ'.
  destruct (watcher_run tr _ w _ (Watcher_Close_closed w b σ Hw))
    as (b' & Hw' & _ & _ & Hcl).
  specialize (Hcl eq_refl). fold σ' in Hw'.
  split; [eauto|].
  destruct (IsAlive_closed w b' σ' Hw' Hcl) as (_ & -> & _). done.
Qed.

(** C3: when the wait of the dispatch loop fails, the loop returns
    if the context is cancelled; otherwise it waits again, with nothing
    changed, if the error is EINTR; otherwise it panics, and the loop
    never runs again. *)
Theorem receiveKevents_wait_error err ress σ :
  (ctx_done (tracker σ) = true →
     receiveKevents (inl err :: ress) σ = (LoopReturn, σ)) ∧
  (ctx_done (tracker σ) = false → err = EINTR →
     receiveKevents_iter (inl err) σ = (LoopContinue, σ) ∧
     receiveKevents (inl err :: ress) σ = receiveKevents ress σ) ∧
  (ctx_done (tracker σ) = false → err ≠ EINTR →
     receiveKevents (inl err :: ress) σ = (LoopPanic (PanicKqueue err), σ) ∧
     (loop σ = LoopRunning →
      ∀ tr, loop (run tr (step (EKevent (inl err)) σ))
            = LoopPanicked (PanicKqueue err))).
Proof.
  split; [|split].
  - intros Hc. simpl. by rewrite Hc.
  - intros Hc ->. simpl. by rewrite Hc.
  - intros Hc Hne.
    assert (Hi : is_EINTR err = false) by (by destruct err).
    split; [simpl; by rewrite Hc, Hi|].
    intros Hl tr. rewrite loop_ended_run; simpl; rewrite Hl, Hc, Hi; done.
Qed.

(** C6, as the code has it: a caller with PID 0 is refused with
    [InvalidCallerError], and nothing changes: no watcher, no
    registration with the kernel, the registry as it was; and no other
    PID, negative ones included, is answered with that error. *)
Theorem NewWatcher_PID_zero info kres σ :
  (PID info = 0%Z → NewWatcher info kres σ = (inl InvalidCallerError, σ)) ∧
  (fst (NewWatcher info kres σ) = inl InvalidCallerError → PID info = 0%Z).
Proof.
  split.
  - intros Hz. unfold NewWatcher. by rewrite Hz.
  - destruct (NewWatcher_cases info kres σ) as
      [[? _]|[(_ & _ & ->)|[(_ & _ & d & _ & ->)|[(_ & _ & _ & e & _ & ->)
        |(_ & _ & _ & _ & ->)]]]]; done.
Qed.

(** C8: after [Tracker.Close], whatever happens next, [NewWatcher] for
    a PID other than 0 fails with [ClosedError] and changes nothing. *)
Theorem NewWatcher_after_Close info kres σ tr :
  PID info ≠ 0%Z →
  let σ' := run tr (Tracker_Close σ) in
  NewWatcher info kres σ' = (inl ClosedError, σ').
Proof.
  intros Hp σ'.
  assert (Hc : ctx_done (tracker σ') = true) by (by apply ctx_done_run).
  unfold NewWatcher. rewrite Hc.
  by destruct (Z.eqb_spec (PID info) 0).
Qed.

(** C9: when there is no entry for the PID and the kernel refuses the
    registration, [NewWatcher] returns a [WatchCreationError] and no
    watcher; the registry, the channels and the watchers are as before;
    and the next [NewWatcher] for that PID asks the kernel again. *)
Theorem NewWatcher_registration_fails info e kres' σ :
  PID info ≠ 0%Z → ctx_done (tracker σ) = false →
  watchedPIDs (tracker σ) !! PID info = None →
  let r := NewWatcher info (Some e) σ in
  let r' := NewWatcher info kres' (snd r) in
  fst r = inl (WatchCreationError e) ∧
  tracker (snd r) = tracker σ ∧ chans (snd r) = chans σ ∧
  watchers (snd r) = watchers σ ∧
  (∃ k, kevent_changes (snd r) = kevent_changes σ ++ [k] ∧
        kc_pid k = PID info ∧ kc_err k = Some e) ∧
  (∃ k', kevent_changes (snd r') = kevent_changes (snd r) ++ [k'] ∧
         kc_pid k' = PID info ∧ kc_err k' = kres') ∧
  (kres' = None → ∃ w', fst r' = inr w').
Proof.
  intros Hp Hc Hl r r'.
  assert (Hr : r = (inl (WatchCreationError e),
                    snd (addKeventForWatcher (PID info) (Some e) σ))).
  { unfold r, NewWatcher. rewrite Hc, Hl.
    by destruct (Z.eqb_spec (PID info) 0). }
  assert (Hc1 : ctx_done (tracker (snd r)) = false) by (by rewrite Hr).
  assert (Hl1 : watchedPIDs (tracker (snd r)) !! PID info = None) by (by rewrite Hr).
  assert (Hr' : (∃ k', kevent_changes (snd r') = kevent_changes (snd r) ++ [k'] ∧
                       kc_pid k' = PID info ∧ kc_err k' = kres') ∧
                (kres' = None → ∃ w', fst r' = inr w')).
  { destruct (NewWatcher_cases info kres' (snd r)) as
      [[? _]|[(_ & ? & _)|[(_ & _ & d & ? & _)|[(_ & _ & _ & e' & -> & Hx)
        |(_ & _ & _ & -> & Hx)]]]]; try congruence;
      fold r' in Hx; rewrite Hx; simpl; split; eauto; done. }
  rewrite Hr in *. simpl. repeat split; eauto; apply Hr'.
Qed.

(** C10: [IsAlive] on a closed watcher answers [NotWatchedError] at its
    first step and does not sleep; it sleeps only when the watcher is not
    closed. *)
Theorem IsAlive_closed_does_not_sleep w b σ :
  watchers σ !! w = Some b →
  let c := length (calls σ) in
  (closed b = true →
     IsAlive_result c (IsAlive_step c (snd (IsAlive_call w σ)))
     = Some (Some NotWatchedError) ∧
     fst (IsAlive w σ) = Some (Some NotWatchedError) ∧
     sleeps (snd (IsAlive w σ)) = sleeps σ) ∧
  (closed b = false →
     sleeps (snd (IsAlive w σ)) = sleeps σ ++ [(c, safetyDelay)]).
Proof.
  intros Hw c. split; intros Hcl.
  - destruct (IsAlive_closed w b σ Hw Hcl) as (H1 & H2 & H3).
    split; [exact H1|]. by rewrite H2.
  - by destruct (IsAlive_open w b σ Hw Hcl) as [_ ?].
Qed.


(** C5: the registry has at most one entry per PID.  An entry appears
    only when [NewWatcher] registers a PID that had none, with a channel
    made for it; an entry, once there, is not replaced, and goes away
    only when the dispatch loop handles an exit event for its PID; a
    watcher's [Close] leaves the registry and the channels as they are.
    When the loop handles an exit event for a PID with an entry, the
    entry's exit signal is closed, which every watcher holding it sees,
    and the entry is deleted; and no other step closes an exit signal. *)
Theorem registry_entry_lifecycle σ e :
  reachable σ →
  let σ' := step e σ in
  NoDup (map_to_list (watchedPIDs (tracker σ))).*1 ∧
  (∀ p, watchedPIDs (tracker σ) !! p = None →
     is_Some (watchedPIDs (tracker σ') !! p) →
     ∃ info, e = ENewWatcher info None ∧ PID info = p ∧
             watchedPIDs (tracker σ') !! p = Some (length (chans σ)) ∧
             chans σ' = chans σ ++ [false]) ∧
  (∀ p d, watchedPIDs (tracker σ) !! p = Some d →
     watchedPIDs (tracker σ') !! p ≠ Some d →
     delivers_exit p e = true ∧ loop σ = LoopRunning ∧
     watchedPIDs (tracker σ') !! p = None) ∧
  (∀ w, tracker (Watcher_Close w σ) = tracker σ ∧
        chans (Watcher_Close w σ) = chans σ) ∧
  (∀ p d, delivers_exit p e = true → loop σ = LoopRunning →
     watchedPIDs (tracker σ) !! p = Some d →
     watchedPIDs (tracker σ') !! p = None ∧ chans σ' !! d = Some true ∧
     ∀ w b, watchers σ' !! w = Some b → done b = d →
            chan_fired (done b) (chans σ') = true) ∧
  (∀ d, chans σ !! d = Some false → chans σ' !! d = Some true →
     ∃ p, delivers_exit p e = true ∧ loop σ = LoopRunning ∧
          watchedPIDs (tracker σ) !! p = Some d).
Proof.
  intros Hr σ'. subst σ'. apply wf_reachable in Hr.
  split; [apply NoDup_fst_map_to_list|].
  split.
  { intros p Hp [d Hd].
    destruct (registry_step_None e σ Hr p Hp) as [Hn|(info & ? & ? & ? & ?)];
      [|eauto].
    by pose proof (eq_trans (eq_sym Hn) Hd). }
  split.
  { intros p d Hp Hne.
    destruct (registry_step_Some e σ Hr p d Hp) as [?|(? & ? & ? & _)]; done. }
  split.
  { intros w. unfold Watcher_Close. by destruct (watchers σ !! w). }
  split.
  { intros p d He Hl Hp.
    destruct (exit_step e σ Hr p d He Hl Hp) as [Hn Hc].
    repeat split; [done..|].
    intros w b _ Hd. unfold chan_fired. by rewrite Hd, Hc. }
  intros d. by apply chan_fires_step.
Qed.

(** C7, as the code has it: when, after [NewWatcher] has succeeded, the
    dispatch loop handles an exit event for the PID before a call of
    [IsAlive] on the watcher makes its check of the exit signal (the
    call has found the watcher not closed and has slept), the call
    returns [CallerExitedError]. *)
Theorem IsAlive_after_observed_exit info kres σ w pre evs post c :
  reachable σ →
  fst (NewWatcher info kres σ) = inr w →
  let σ2 := run pre (snd (NewWatcher info kres σ)) in
  loop σ2 = LoopRunning →
  existsb (exit_for (PID info)) evs = true →
  let σ4 := run post (step (EKevent (inr evs)) σ2) in
  calls σ4 !! c = Some {| call_w := w; call_pc := pc_select |} →
  IsAlive_result c (IsAlive_step c σ4) = Some (Some CallerExitedError).
Proof.
  intros Hr Hok σ2 Hl Hev σ4 Hc. apply wf_reachable in Hr.
  destruct (NewWatcher_ok info kres σ w Hok) as (d & Hw1 & Hp1).
  pose proof (wf_step (ENewWatcher info kres) σ Hr) as Hwf1. simpl in Hwf1.
  pose proof (wf_run pre _ Hwf1) as Hwf2. fold σ2 in Hwf2.
  assert (Hf2 : fired_or_tracked (PID info) d σ2).
  { apply fired_or_tracked_run; [done|by right]. }
  assert (Hd3 : chans (step (EKevent (inr evs)) σ2) !! d = Some true).
  { destruct Hf2 as [Hd|Hp]; [by apply chan_closed_step|].
    by destruct (exit_step (EKevent (inr evs)) σ2 Hwf2 (PID info) d Hev Hl Hp). }
  assert (Hd4 : chans σ4 !! d = Some true).
  { apply chan_closed_run; [by apply wf_step|done]. }
  destruct (watcher_run pre _ w _ Hw1) as (b2 & Hw2 & Hd2 & _). fold σ2 in Hw2.
  destruct (watcher_step (EKevent (inr evs)) σ2 w b2 Hw2) as (b3 & Hw3 & Hd3' & _).
  destruct (watcher_run post _ w b3 Hw3) as (b4 & Hw4 & Hd4' & _). fold σ4 in Hw4.
  assert (Hdone : done b4 = d) by (simpl in *; congruence).
  rewrite (IsAlive_step_at _ _ _ _ _ Hc Hw4). simpl.
  unfold chan_fired. rewrite Hdone, Hd4.
  unfold IsAlive_result. by rewrite (set_pc_lookup _ _ _ _ Hc).
Qed.

End Claims.

(** * Further properties of the tracker *)

Section Extras.
Context `{Platform}.

(** ** What [IsAlive] answers *)

Lemma IsAlive_answer w σ :
  fst (IsAlive w σ)
  = match watchers σ !! w with
    | Some b => Some (answer b (chans σ))
    | None => None
    end.
Proof.
  destruct (watchers σ !! w) as [b|] eqn:Hw.
  - unfold answer. destruct (closed b) eqn:Hcl.
    + by destruct (IsAlive_closed w b σ Hw Hcl) as (_ & -> & _).
    + destruct (IsAlive_open w b σ Hw Hcl) as [-> _].
      by destruct (chan_fired (done b) (chans σ)).
  - unfold IsAlive. simpl.
    assert (Hs : ∀ σ', calls σ' !! length (calls σ)
                       = Some {| call_w := w; call_pc := pc_lock |} →
                       watchers σ' = watchers σ →
                       IsAlive_step (length (calls σ)) σ' = σ').
    { intros σ' Hc Hw'. unfold IsAlive_step. by rewrite Hc; simpl; rewrite Hw', Hw. }
    pose proof (IsAlive_call_lookup w σ) as Hc. simpl in Hc.
    rewrite !(Hs (set_calls _ σ) Hc eq_refl).
    unfold IsAlive_result. simpl. by rewrite Hc.
Qed.

(** ** How the dispatch loop ends *)

Lemma loop_ok_step e σ : wf σ → loop_ok σ → loop_ok (step e σ).
Proof.
  intros Hwf Hok.
  assert (Hsame : loop (step e σ) = loop σ →
                  (ctx_done (tracker σ) = true →
                   ctx_done (tracker (step e σ)) = true) →
                  loop_ok (step e σ)).
  { unfold loop_ok in *. intros -> Hc. destruct (loop σ) as [| |[e'|]]; auto. }
  assert (Hd : loop σ = LoopRunning ∨ loop σ ≠ LoopRunning)
    by (destruct (loop σ); [by left|by right..]).
  destruct Hd as [Hl|Hl];
    [|apply Hsame; [by apply loop_ended_step|by apply ctx_done_step]].
  destruct e as [info kres| |w'|w'|c'|res|p].
  - apply Hsame; [|by apply ctx_done_step].
    simpl. destruct (NewWatcher_cases info kres σ) as
      [[_ ->]|[(_ & _ & ->)|[(_ & _ & d & _ & ->)|[(_ & _ & _ & e & _ & ->)
        |(_ & _ & _ & _ & ->)]]]]; done.
  - by apply Hsame.
  - apply Hsame; [|by apply ctx_done_step].
    simpl. unfold Watcher_Close. by destruct (watchers σ !! w').
  - by apply Hsame.
  - apply Hsame; [|by apply ctx_done_step].
    simpl. unfold IsAlive_step. repeat case_match; done.
  - clear Hsame. unfold loop_ok. simpl. rewrite Hl.
    destruct res as [err|evs]; simpl.
    + destruct (ctx_done (tracker σ)) eqn:Hc; [done|].
      destruct (is_EINTR err) eqn:Hi; simpl; [done|]. by intros ->.
    + destruct (handle_kevents_spec evs σ Hwf) as (σ1 & -> & _). done.
  - by apply Hsame.
Qed.

Lemma loop_ok_run tr σ : wf σ → loop_ok σ → loop_ok (run tr σ).
Proof.
  revert σ. induction tr as [|e tr IH]; intros σ Hwf Hok; [done|].
  apply IH; [by apply wf_step | by apply loop_ok_step].
Qed.

(** X1: in every world the process can reach, handling a batch of
    events never closes a channel twice (no panic inside the batch); the
    loop has returned only if the context is cancelled, and has panicked
    only on an error of the wait other than EINTR. *)
Theorem dispatch_loop_ends_well σ :
  reachable σ →
  (∀ evs, fst (handle_kevents evs σ) = None) ∧
  (loop σ = LoopReturned → ctx_done (tracker σ) = true) ∧
  (∀ p, loop σ = LoopPanicked p → ∃ e, p = PanicKqueue e ∧ e ≠ EINTR).
Proof.
  intros Hr. pose proof (wf_reachable σ Hr) as Hwf.
  assert (Hok : loop_ok σ).
  { destruct Hr as (fd & tr & σ0 & Hn & ->).
    apply loop_ok_run; [by eapply wf_newTracker|].
    unfold newTracker in Hn. by simplify_eq. }
  split; [|split].
  - intros evs. by destruct (handle_kevents_spec evs σ Hwf) as (σ1 & -> & _).
  - intros Hl. unfold loop_ok in Hok. by rewrite Hl in Hok.
  - intros p Hl. unfold loop_ok in Hok. rewrite Hl in Hok.
    destruct p as [e|]; [eauto|done].
Qed.

(** X2: once [Tracker.Close] has run, the dispatch loop never panics:
    the first error of its wait makes it return, whatever the error, and
    along every trace the loop is running or has returned. *)
Theorem loop_after_Close_never_panics σ err tr :
  reachable σ → loop σ = LoopRunning →
  loop (step (EKevent (inl err)) (Tracker_Close σ)) = LoopReturned ∧
  (loop (run tr (Tracker_Close σ)) = LoopRunning ∨
   loop (run tr (Tracker_Close σ)) = LoopReturned).
Proof.
  intros Hr Hl. apply wf_reachable in Hr. split; [simpl; by rewrite Hl|].
  assert (Hgen : ∀ σ', wf σ' → ctx_done (tracker σ') = true →
            (loop σ' = LoopRunning ∨ loop σ' = LoopReturned) →
            loop (run tr σ') = LoopRunning ∨ loop (run tr σ') = LoopReturned).
  { induction tr as [|e tr IH]; intros σ' Hwf Hc Hl'; [done|].
    apply IH; [by apply wf_step|by apply ctx_done_step|].
    destruct Hl' as [Hl'|Hl']; [|right; rewrite loop_ended_step; congruence].
    destruct e as [info kres| |w'|w'|c'|res|p]; try (by left).
    - left. simpl. destruct (NewWatcher_cases info kres σ') as
        [[_ ->]|[(_ & _ & ->)|[(_ & _ & d & _ & ->)|[(_ & _ & _ & e & _ & ->)
          |(_ & _ & _ & _ & ->)]]]]; done.
    - left. simpl. unfold Watcher_Close. by destruct (watchers σ' !! w').
    - left. simpl. unfold IsAlive_step. repeat case_match; done.
    - simpl. rewrite Hl'. destruct res as [err'|evs]; simpl.
      + rewrite Hc. by right.
      + destruct (handle_kevents_spec evs σ' Hwf) as (σ1 & -> & _). by left. }
  apply Hgen; [by apply (wf_same σ)|done|by left].
Qed.

(** ** Exit signals over time *)

Lemma chan_fired_lookup (d : chan) (h : list bool) x :
  h !! d = Some x → chan_fired d h = x.
Proof. unfold chan_fired. intros ->. by destruct x. Qed.

Lemma chan_frozen_step e σ d x :
  wf σ → loop σ ≠ LoopRunning → chans σ !! d = Some x →
  chans (step e σ) !! d = Some x.
Proof.
  intros Hwf Hl Hd.
  destruct (step_registry_chans e σ Hwf)
    as [[_ ->]|[(info & _ & _ & _ & ->)|(evs & _ & ? & _)]]; [done| |done].
  rewrite lookup_app_l; [done|]. by eapply lookup_lt_Some.
Qed.

Lemma chan_frozen_run tr σ d x :
  wf σ → loop σ ≠ LoopRunning → chans σ !! d = Some x →
  chans (run tr σ) !! d = Some x.
Proof.
  revert σ. induction tr as [|e tr IH]; intros σ Hwf Hl Hd; [done|].
  apply IH; [by apply wf_step| |by apply chan_frozen_step].
  by rewrite loop_ended_step.
Qed.

(** X3: when the dispatch loop has ended (returned or panicked), no
    exit signal fires any more: a watcher whose signal has not fired
    never gets [CallerExitedError] from [IsAlive], whatever exit events
    the kernel still has; it gets nil until it is closed. *)
Theorem no_exit_seen_once_loop_ended w b σ tr :
  reachable σ → loop σ ≠ LoopRunning →
  watchers σ !! w = Some b → chans σ !! done b = Some false →
  ∃ b', watchers (run tr σ) !! w = Some b' ∧
        fst (IsAlive w (run tr σ))
        = Some (if closed b' then Some NotWatchedError else None).
Proof.
  intros Hr Hl Hw Hd. apply wf_reachable in Hr.
  destruct (watcher_run tr σ w b Hw) as (b' & Hw' & Hdone & _).
  exists b'. split; [done|]. rewrite IsAlive_answer, Hw'. unfold answer.
  destruct (closed b'); [done|]. rewrite Hdone.
  by rewrite (chan_fired_lookup _ _ _ (chan_frozen_run tr σ _ _ Hr Hl Hd)).
Qed.

(** X4: once the exit signal of a watcher has fired, [IsAlive] on it
    never answers nil again: it answers [CallerExitedError] until the
    watcher is closed, and [NotWatchedError] from then on. *)
Theorem exited_stays_exited w b σ tr :
  reachable σ →
  watchers σ !! w = Some b → chans σ !! done b = Some true →
  ∃ b', watchers (run tr σ) !! w = Some b' ∧
        fst (IsAlive w (run tr σ))
        = Some (Some (if closed b' then NotWatchedError else CallerExitedError)).
Proof.
  intros Hr Hw Hd. apply wf_reachable in Hr.
  destruct (watcher_run tr σ w b Hw) as (b' & Hw' & Hdone & _).
  exists b'. split; [done|]. rewrite IsAlive_answer, Hw'. unfold answer.
  destruct (closed b'); [done|]. rewrite Hdone.
  by rewrite (chan_fired_lookup _ _ _ (chan_closed_run tr σ _ Hr Hd)).
Qed.

(** X5: [PID] of a watcher is the PID of the [CallerInfo] it was made
    for, and stays so whatever happens, its own [Close] included. *)
Theorem Watcher_PID_stable info kres σ w tr :
  fst (NewWatcher info kres σ) = inr w →
  Watcher_PID w (run tr (snd (NewWatcher info kres σ))) = Some (PID info).
Proof.
  intros Hok. destruct (NewWatcher_ok info kres σ w Hok) as (d & Hw & _).
  destruct (watcher_run tr _ w _ Hw) as (b' & Hw' & _ & Hp & _).
  unfold Watcher_PID. rewrite Hw'. simpl. by rewrite Hp.
Qed.

(** X6: closing a watcher changes the answer of no other watcher, also
    of those that share its exit signal; closing it again changes
    nothing. *)
Theorem Watcher_Close_touches_one w w' σ :
  w ≠ w' →
  fst (IsAlive w' (Watcher_Close w σ)) = fst (IsAlive w' σ) ∧
  Watcher_Close w (Watcher_Close w σ) = Watcher_Close w σ.
Proof.
  intros Hne. split.
  - rewrite !IsAlive_answer. unfold Watcher_Close.
    destruct (watchers σ !! w) as [b|]; [|done]. simpl.
    by rewrite list_lookup_insert_ne.
  - unfold Watcher_Close at 1 3.
    destruct (watchers σ !! w) as [b|] eqn:Hw.
    + rewrite (Watcher_Close_closed w b σ Hw). unfold Watcher_Close.
      rewrite Hw. unfold set_watchers. simpl. by rewrite list_insert_insert_eq.
    + unfold Watcher_Close. by rewrite Hw, Hw.
Qed.

(** ** Events the loop passes over *)

Lemma handle_kevent_passed_over ev σ :
  passed_over σ ev → handle_kevent ev σ = Some σ.
Proof.
  unfold handle_kevent. intros [Hx|[Hc|(p & Hc & Hp)]].
  - by rewrite Hx.
  - rewrite Hc. by destruct (is_exit_event ev).
  - rewrite Hc, Hp. by destruct (is_exit_event ev).
Qed.

Lemma handle_kevents_passed_over evs σ :
  Forall (passed_over σ) evs → handle_kevents evs σ = (None, σ).
Proof.
  induction 1 as [|ev evs Hev _ IH]; [done|]. simpl.
  by rewrite (handle_kevent_passed_over _ _ Hev).
Qed.

(** X7: a batch made of events that are not exit events (another
    filter, no NOTE_EXIT flag), of events whose ident does not cast to a
    PID, and of exit events for PIDs that are not in the registry, the
    empty batch included, changes nothing, and the loop goes on. *)
Theorem receiveKevents_passes_over evs ress σ :
  Forall (passed_over σ) evs →
  receiveKevents_iter (inr evs) σ = (LoopContinue, σ) ∧
  receiveKevents (inr evs :: ress) σ = receiveKevents ress σ.
Proof.
  intros Hp. simpl. by rewrite (handle_kevents_passed_over _ _ Hp).
Qed.

(** X8: delivering a batch of events a second time changes nothing:
    the entries it names are gone after the first time. *)
Theorem exit_batch_idempotent evs σ :
  reachable σ → loop σ = LoopRunning →
  step (EKevent (inr evs)) (step (EKevent (inr evs)) σ)
  = step (EKevent (inr evs)) σ.
Proof.
  intros Hr Hl. apply wf_reachable in Hr.
  destruct (handle_kevents_spec evs σ Hr) as (σ1 & Hk & _ & Hreg & _).
  assert (Hs : step (EKevent (inr evs)) σ = set_loop LoopRunning σ1).
  { simpl. by rewrite Hl, Hk. }
  rewrite Hs. simpl.
  assert (Hp : Forall (passed_over (set_loop LoopRunning σ1)) evs).
  { apply Forall_forall. intros ev Hev. unfold passed_over.
    destruct (is_exit_event ev) eqn:Hx; [|by left]. right.
    destruct (CheckedCast_int (Ident ev)) as [p|] eqn:Hc; [|by left].
    right. exists p. split; [done|]. simpl. rewrite Hreg.
    assert (He : existsb (exit_for p) evs = true).
    { apply existsb_exists. exists ev. split; [by apply list_elem_of_In|].
      unfold exit_for. rewrite Hx, Hc. by rewrite bool_decide_eq_true_2. }
    by rewrite He. }
  by rewrite (handle_kevents_passed_over _ _ Hp).
Qed.

(** X9: after the loop has handled the exit of a watched process, the
    next [NewWatcher] for the same PID (the PID was reused) registers
    with the kernel again and gets a new exit signal: the watchers of
    the old process answer [CallerExitedError], the new watcher nil. *)
Theorem NewWatcher_after_exit info evs d σ :
  reachable σ → loop σ = LoopRunning → ctx_done (tracker σ) = false →
  PID info ≠ 0%Z → watchedPIDs (tracker σ) !! PID info = Some d →
  existsb (exit_for (PID info)) evs = true →
  let σ1 := step (EKevent (inr evs)) σ in
  let r := NewWatcher info None σ1 in
  let d' := length (chans σ1) in
  let w' := length (watchers σ1) in
  fst r = inr w' ∧ d' ≠ d ∧
  watchers (snd r) !! w' = Some {| closed := false; done := d'; pid := PID info |} ∧
  watchedPIDs (tracker (snd r)) !! PID info = Some d' ∧
  (∃ k, attempts (PID info) (snd r) = attempts (PID info) σ1 ++ [k] ∧
        kc_err k = None) ∧
  fst (IsAlive w' (snd r)) = Some None ∧
  (∀ w b, watchers σ !! w = Some b → done b = d → closed b = false →
          fst (IsAlive w (snd r)) = Some (Some CallerExitedError)).
Proof.
  intros Hr Hl Hc Hz Hp He σ1 r d' w'. apply wf_reachable in Hr.
  destruct (exit_step (EKevent (inr evs)) σ Hr (PID info) d He Hl Hp)
    as [Hp1 Hd1]. fold σ1 in Hp1, Hd1.
  pose proof (wf_step (EKevent (inr evs)) σ Hr) as Hwf1. fold σ1 in Hwf1.
  assert (Hc1 : ctx_done (tracker σ1) = false).
  { destruct (step_EKevent_frame (inr evs) σ) as (_ & _ & _ & _ & _ & Hx & _).
    unfold σ1. by rewrite Hx. }
  assert (Hw1 : watchers σ1 = watchers σ).
  { by destruct (step_EKevent_frame (inr evs) σ) as (Hx & _). }
  pose proof (attempts_step_None (PID info) (ENewWatcher info None) σ1 Hwf1 Hp1)
    as Hcase. simpl in Hcase.
  destruct Hcase as [[_ Hn]|[(k & _ & _ & Hn)|(k & Ha & Hk & Hn & Hws)]].
  1,2: exfalso; revert Hn; unfold NewWatcher; rewrite Hc1, Hp1;
       destruct (Z.eqb_spec (PID info) 0); [done|]; simpl;
       by rewrite lookup_insert_eq.
  fold r in Ha, Hn, Hws.
  assert (Hfst : fst r = inr w').
  { unfold r, NewWatcher. rewrite Hc1, Hp1.
    by destruct (Z.eqb_spec (PID info) 0). }
  assert (Hch : chans (snd r) = chans σ1 ++ [false]).
  { unfold r, NewWatcher. rewrite Hc1, Hp1.
    by destruct (Z.eqb_spec (PID info) 0). }
  assert (Hlt : (d < d')%nat) by (by eapply lookup_lt_Some).
  assert (Hnew : watchers (snd r) !! w'
                 = Some {| closed := false; done := d'; pid := PID info |}).
  { rewrite Hws. by rewrite lookup_app_r, Nat.sub_diag. }
  split; [done|]. split; [lia|]. split; [done|]. split; [done|].
  split; [eauto|]. split.
  - rewrite IsAlive_answer, Hnew. unfold answer. simpl.
    rewrite (chan_fired_lookup d' _ false); [done|].
    by rewrite Hch, lookup_app_r, Nat.sub_diag.
  - intros w b Hw Hdone Hcl. rewrite IsAlive_answer, Hws, Hw1.
    rewrite lookup_app_l by (by eapply lookup_lt_Some). rewrite Hw.
    unfold answer. rewrite Hcl, Hdone.
    rewrite (chan_fired_lookup d _ true); [done|].
    rewrite Hch, lookup_app_l; [done|]. by eapply lookup_lt_Some.
Qed.

(** ** Invariants of the reachable worlds *)

Lemma reachable_inv (P : World → Prop) :
  (∀ fd σ0, newTracker (inr fd) = inr σ0 → P σ0) →
  (∀ e σ, wf σ → P σ → P (step e σ)) →
  ∀ σ, reachable σ → P σ.
Proof.
  intros Hinit Hstep σ (fd & tr & σ0 & Hn & ->).
  assert (Hgen : ∀ σ, wf σ → P σ → P (run tr σ)).
  { induction tr as [|e tr IH]; intros σ Hwf HP; [done|].
    apply IH; [by apply wf_step|by apply Hstep]. }
  apply Hgen; [by eapply wf_newTracker|by eapply Hinit].
Qed.

(** X10: an exit signal is open exactly as long as the registry holds
    an entry with it: the signals of the registry have not fired, and a
    signal that has not fired still has its entry, so a watcher that
    answers nil is always one whose PID the tracker still watches. *)
Theorem open_signals_are_registered σ (d : chan) :
  reachable σ →
  chans σ !! d = Some false ↔ ∃ p, watchedPIDs (tracker σ) !! p = Some d.
Proof.
  intros Hr. split;
    [|intros [p Hp]; apply wf_reachable in Hr; by eapply wf_open].
  revert d. revert σ Hr.
  apply (reachable_inv (λ σ, ∀ d : chan, chans σ !! d = Some false →
                             ∃ p, watchedPIDs (tracker σ) !! p = Some d)).
  - intros fd σ0 Hn d Hd. unfold newTracker in Hn. by simplify_eq.
  - intros e σ Hwf IH d Hd.
    destruct (step_registry_chans e σ Hwf)
      as [[Hreg Hc]|[(info & _ & Hn & Hreg & Hc)
                    |(evs & -> & _ & Hreg & Hcl & Hex & _)]].
    + rewrite Hc in Hd. destruct (IH d Hd) as [p Hp]. exists p. by rewrite Hreg.
    + rewrite Hc in Hd. apply lookup_app_Some in Hd as [Hd|[Hge Hd]].
      * destruct (IH d Hd) as [p Hp]. exists p. rewrite Hreg.
        rewrite lookup_insert_ne; [done|]. intros <-.
        by pose proof (eq_trans (eq_sym Hn) Hp).
      * apply list_lookup_singleton_Some in Hd as [Hz _].
        exists (PID info). rewrite Hreg, lookup_insert_eq. f_equal. lia.
    + assert (Hlen : length (chans (step (EKevent (inr evs)) σ))
                     = length (chans σ))
        by (by destruct (step_EKevent_frame (inr evs) σ) as (_&_&_&_&_&_&?)).
      destruct (chans σ !! d) as [[|]|] eqn:Hd0.
      * apply Hcl in Hd0. by pose proof (eq_trans (eq_sym Hd) Hd0).
      * destruct (IH d Hd0) as [p Hp]. exists p. rewrite Hreg.
        destruct (existsb (exit_for p) evs) eqn:He; [|done].
        pose proof (Hex p d He Hp) as Hd1.
        by pose proof (eq_trans (eq_sym Hd) Hd1).
      * apply lookup_ge_None in Hd0. apply lookup_lt_Some in Hd. lia.
Qed.

Lemma accepted_snoc σ σ' k :
  kevent_changes σ' = kevent_changes σ ++ [k] →
  accepted σ' = accepted σ ++ (if decide (kc_err k = None) then [k] else []).
Proof.
  intros Hk. unfold accepted. rewrite Hk, filter_app.
  case_decide; [by rewrite filter_cons_True | by rewrite filter_cons_False].
Qed.

Lemma registrations_mono p e σ :
  registrations p σ ≠ [] → registrations p (step e σ) ≠ [].
Proof.
  intros Hne.
  assert (Hpre : ∀ σ' l, kevent_changes σ' = kevent_changes σ ++ l →
                         registrations p σ' ≠ []).
  { intros σ' l Hl. unfold registrations in *. rewrite Hl, filter_app.
    intros Hx. by apply app_eq_nil in Hx as [? _]. }
  assert (Hsame : ∀ σ', kevent_changes σ' = kevent_changes σ →
                        registrations p σ' ≠ []).
  { intros σ' Hl. apply (Hpre σ' []). by rewrite app_nil_r. }
  destruct e as [info kres| |w'|w'|c'|res|q]; try by apply Hsame.
  - simpl. destruct (NewWatcher_cases info kres σ) as
      [[_ ->]|[(_ & _ & ->)|[(_ & _ & d & _ & ->)|[(_ & _ & _ & e & _ & ->)
        |(_ & _ & _ & _ & ->)]]]]; simpl;
      first [by apply Hsame | by eapply Hpre].
  - apply Hsame. simpl. unfold Watcher_Close. by destruct (watchers σ !! w').
  - apply Hsame. simpl. unfold IsAlive_step. repeat case_match; done.
  - apply Hsame. by destruct (step_EKevent_frame res σ) as (_ & _ & -> & _).
Qed.

(** X11: the tracker makes one exit signal for each registration the
    kernel accepted, and none else; and every PID of the registry has a
    registration that the kernel accepted. *)
Theorem signals_match_registrations σ :
  reachable σ →
  length (chans σ) = length (accepted σ) ∧
  (∀ p d, watchedPIDs (tracker σ) !! p = Some d → registrations p σ ≠ []).
Proof.
  revert σ.
  apply (reachable_inv (λ σ,
    length (chans σ) = length (accepted σ) ∧
    (∀ p d, watchedPIDs (tracker σ) !! p = Some d → registrations p σ ≠ []))).
  - intros fd σ0 Hn. unfold newTracker in Hn. by simplify_eq.
  - intros e σ Hwf [IH1 IH2]. split.
    + destruct e as [info kres| |w'|w'|c'|res|q]; try done.
      * simpl. destruct (NewWatcher_cases info kres σ) as
          [[_ ->]|[(_ & _ & ->)|[(_ & _ & d & _ & ->)|[(_ & _ & _ & e & -> & ->)
            |(_ & _ & _ & -> & ->)]]]]; try done; simpl.
        -- erewrite accepted_snoc; [|done]. simpl. by rewrite app_nil_r.
        -- erewrite (accepted_snoc σ); [|done]. simpl.
           rewrite !length_app. simpl. lia.
      * simpl. unfold Watcher_Close. by destruct (watchers σ !! w').
      * simpl. unfold IsAlive_step. repeat case_match; done.
      * destruct (step_EKevent_frame res σ) as (_ & _ & Hk & _ & _ & _ & Hl).
        unfold accepted. by rewrite Hl, Hk.
    + intros p d Hp.
      destruct (watchedPIDs (tracker σ) !! p) as [d0|] eqn:Hp0.
      { apply registrations_mono. by eapply IH2. }
      destruct (attempts_step_None p e σ Hwf Hp0)
        as [[_ Hn]|[(k & _ & _ & Hn)|(k & Ha & Hk & _)]];
        try (by pose proof (eq_trans (eq_sym Hn) Hp)).
      rewrite registrations_attempts, Ha, filter_app.
      rewrite filter_cons_True by done.
      intros Hx. by apply app_eq_nil in Hx as [_ ?].
Qed.

(** X12: PID 0 is never watched: in every world the process can reach,
    no entry of the registry, no watcher and no call to the kernel is
    for PID 0. *)
Theorem PID_zero_never_watched σ :
  reachable σ →
  (∀ d, watchedPIDs (tracker σ) !! 0%Z ≠ Some d) ∧
  (∀ w b, watchers σ !! w = Some b → pid b ≠ 0%Z) ∧
  Forall (λ k, kc_pid k ≠ 0%Z) (kevent_changes σ).
Proof.
  revert σ.
  apply (reachable_inv (λ σ,
    (∀ d, watchedPIDs (tracker σ) !! 0%Z ≠ Some d) ∧
    (∀ w b, watchers σ !! w = Some b → pid b ≠ 0%Z) ∧
    Forall (λ k, kc_pid k ≠ 0%Z) (kevent_changes σ))).
  - intros fd σ0 Hn. unfold newTracker in Hn. simplify_eq. simpl.
    split; [|split]; [by intros d; rewrite lookup_empty|by intros w b|constructor].
  - intros e σ Hwf (IH1 & IH2 & IH3). split; [|split].
    + intros d Hd.
      destruct (watchedPIDs (tracker σ) !! 0%Z) as [d0|] eqn:H0;
        [by eapply IH1|].
      destruct (registry_step_None e σ Hwf 0%Z H0) as [Hn|(info & -> & Hz & _)].
      * by pose proof (eq_trans (eq_sym Hn) Hd).
      * revert Hd. simpl. unfold NewWatcher. rewrite Hz. simpl. by rewrite H0.
    + intros w b Hw.
      destruct (new_watcher_step e σ w b Hwf Hw) as [(b0 & Hb0 & _ & <-)|[_ Hr]].
      * by eapply IH2.
      * intros Hz. rewrite Hz in Hr.
        destruct (watchedPIDs (tracker σ) !! 0%Z) as [d0|] eqn:H0;
          [by eapply IH1|].
        destruct (registry_step_None e σ Hwf 0%Z H0) as [Hn|(info & -> & Hz' & _)].
        -- by pose proof (eq_trans (eq_sym Hn) Hr).
        -- revert Hr. simpl. unfold NewWatcher. rewrite Hz'. simpl. by rewrite H0.
    + destruct e as [info kres| |w'|w'|c'|res|q]; try done.
      * simpl. destruct (NewWatcher_cases info kres σ) as
          [[_ ->]|[(_ & _ & ->)|[(_ & _ & d & _ & ->)|[(Hz & _ & _ & e & -> & ->)
            |(Hz & _ & _ & -> & ->)]]]]; try done; simpl;
          apply Forall_app; split; try done; by repeat constructor.
      * simpl. unfold Watcher_Close. by destruct (watchers σ !! w').
      * simpl. unfold IsAlive_step. repeat case_match; done.
      * by destruct (step_EKevent_frame res σ) as (_ & _ & -> & _).
Qed.

(** ** From the registration to the exit event *)

(** X13: what [addKeventForWatcher] registers is what the loop looks
    for.  On a platform where EVFILT_PROC fits an [int16], NOTE_EXIT is
    a positive flag and the ident of the PID casts back to the PID: when
    the kernel hands back the event that [NewWatcher] registered, the
    loop takes it for the exit of that PID, and [IsAlive] on the new
    watcher answers [CallerExitedError]. *)
Theorem registered_kevent_fires info σ w :
  to_int16 EVFILT_PROC = EVFILT_PROC → (0 < NOTE_EXIT)%Z →
  CheckedCast_int (to_uint64 (PID info)) = Some (PID info) →
  reachable σ → loop σ = LoopRunning →
  watchedPIDs (tracker σ) !! PID info = None →
  fst (NewWatcher info None σ) = inr w →
  let σ1 := snd (NewWatcher info None σ) in
  ∃ k, last (kevent_changes σ1) = Some k ∧
       kc_pid k = PID info ∧ kc_err k = None ∧
       exit_for (PID info) (kc_change k) = true ∧
       fst (IsAlive w (step (EKevent (inr [kc_change k])) σ1))
       = Some (Some CallerExitedError).
Proof.
  intros Hf Hn Hcast Hr Hl Hp Hok σ1. apply wf_reachable in Hr.
  destruct (NewWatcher_ok info None σ w Hok) as (d & Hw & Hp1).
  fold σ1 in Hw, Hp1.
  pose proof (wf_step (ENewWatcher info None) σ Hr) as Hwf1.
  change (step (ENewWatcher info None) σ) with σ1 in Hwf1.
  assert (Hl1 : loop σ1 = LoopRunning).
  { unfold σ1. destruct (NewWatcher_cases info None σ) as
      [[_ ->]|[(_ & _ & ->)|[(_ & _ & d' & _ & ->)|[(_ & _ & _ & e & _ & ->)
        |(_ & _ & _ & _ & ->)]]]]; done. }
  set (k := {| kc_pid := PID info;
               kc_change :=
                 {| Ident := to_uint64 (PID info);
                    Filter := to_int16 EVFILT_PROC;
                    Flags := to_uint16 (Z.lor (Z.lor EV_ADD EV_RECEIPT) EV_ONESHOT);
                    Fflags := NOTE_EXIT; Data := 0 |};
               kc_err := None |}).
  assert (Hlast : last (kevent_changes σ1) = Some k).
  { unfold σ1. revert Hok.
    destruct (NewWatcher_cases info None σ) as
      [[_ ->]|[(_ & _ & ->)|[(_ & _ & d' & Hd' & _)|[(_ & _ & _ & e & ? & _)
        |(_ & _ & _ & _ & ->)]]]]; try done.
    - by pose proof (eq_trans (eq_sym Hp) Hd').
    - intros _. simpl. by rewrite last_snoc. }
  assert (He : exit_for (PID info) (kc_change k) = true).
  { unfold exit_for, is_exit_event. simpl. rewrite Hf, Z.eqb_refl, Z.land_diag.
    simpl. rewrite Hcast, bool_decide_eq_true_2 by done.
    rewrite andb_true_r. by apply Z.ltb_lt. }
  exists k. repeat split; try done.
  assert (Hex : existsb (exit_for (PID info)) [kc_change k] = true)
    by (cbn [existsb]; by rewrite He).
  destruct (exit_step (EKevent (inr [kc_change k])) σ1 Hwf1 (PID info) d
              Hex Hl1 Hp1) as [_ Hd].
  destruct (watcher_step (EKevent (inr [kc_change k])) σ1 w _ Hw)
    as (b' & Hw' & Hdone & _ & _).
  rewrite IsAlive_answer, Hw'. unfold answer.
  assert (Hcl : closed b' = false).
  { destruct (step_EKevent_frame (inr [kc_change k]) σ1) as (Hws & _).
    rewrite Hws in Hw'. by pose proof (eq_trans (eq_sym Hw') Hw) as [= ->]. }
  rewrite Hcl, Hdone. simpl.
  by rewrite (chan_fired_lookup d _ true).
Qed.

(** ** What the calls of [IsAlive] have slept *)

Lemma sleeps_of_same c σ σ' :
  sleeps σ' = sleeps σ → sleeps_of c σ' = sleeps_of c σ.
Proof. unfold sleeps_of. by intros ->. Qed.

(** X14: every call of [IsAlive] sleeps at most once, and then for
    [safetyDelay]: while it stands before its sleep, and when it has
    answered [NotWatchedError], it has not slept; once past the sleep,
    and when it has answered nil or [CallerExitedError], it has slept
    [safetyDelay], once. *)
Theorem calls_sleep_once σ c cl :
  reachable σ → calls σ !! c = Some cl →
  sleeps_of c σ = slept (call_pc cl).
Proof.
  intros Hr. revert c cl.
  assert (Hinv : (∀ c cl, calls σ !! c = Some cl →
                          sleeps_of c σ = slept (call_pc cl)) ∧
                 (∀ x, x ∈ sleeps σ → (fst x < length (calls σ))%nat));
    [|by destruct Hinv].
  revert σ Hr.
  apply (reachable_inv (λ σ,
    (∀ c cl, calls σ !! c = Some cl → sleeps_of c σ = slept (call_pc cl)) ∧
    (∀ x, x ∈ sleeps σ → (fst x < length (calls σ))%nat))).
  - intros fd σ0 Hn. unfold newTracker in Hn. simplify_eq. simpl.
    split; [by intros c cl|]. intros x Hx. by apply elem_of_nil in Hx.
  - intros e σ Hwf [IH1 IH2].
    assert (Hsame : calls (step e σ) = calls σ → sleeps (step e σ) = sleeps σ →
      (∀ c cl, calls (step e σ) !! c = Some cl →
               sleeps_of c (step e σ) = slept (call_pc cl)) ∧
      (∀ x, x ∈ sleeps (step e σ) → (fst x < length (calls (step e σ)))%nat)).
    { intros Hc Hs. rewrite Hc, Hs. split; [|done].
      intros c cl Hl. rewrite (sleeps_of_same c σ _ Hs). by apply IH1. }
    destruct e as [info kres| |w'|w'|c'|res|q]; try by apply Hsame.
    + apply Hsame; simpl; destruct (NewWatcher_cases info kres σ) as
        [[_ ->]|[(_ & _ & ->)|[(_ & _ & d & _ & ->)|[(_ & _ & _ & e & _ & ->)
          |(_ & _ & _ & _ & ->)]]]]; done.
    + apply Hsame; simpl; unfold Watcher_Close; by destruct (watchers σ !! w').
    + (* a new call *)
      simpl. split.
      * intros c cl Hl. apply lookup_app_Some in Hl as [Hl|[Hge Hl]].
        -- by apply IH1.
        -- apply list_lookup_singleton_Some in Hl as [Hz <-]. simpl.
           unfold sleeps_of. simpl.
           assert (Hf : filter (λ x : nat * Z, fst x = c) (sleeps σ) = []);
             [|by rewrite Hf].
           destruct (filter (λ x : nat * Z, fst x = c) (sleeps σ))
             as [|x l] eqn:Hfl; [done|].
           assert (Hx : x ∈ filter (λ x : nat * Z, fst x = c) (sleeps σ))
             by (rewrite Hfl; left).
           apply list_elem_of_filter in Hx as [Hfx Hx]. apply IH2 in Hx. lia.
      * intros x Hx. apply IH2 in Hx. rewrite length_app. simpl. lia.
    + (* a step of a call *)
      simpl. unfold IsAlive_step.
      destruct (calls σ !! c') as [cl'|] eqn:Hc'; [|by split].
      destruct (watchers σ !! call_w cl') as [b|]; [|by split].
      pose proof (IH1 c' cl' Hc') as Hsl.
      assert (Hlt : (c' < length (calls σ))%nat) by (by eapply lookup_lt_Some).
      assert (Hset : ∀ pc l,
        sleeps_of c' (set_sleeps l σ) = slept pc →
        (∀ c, c ≠ c' → sleeps_of c (set_sleeps l σ) = sleeps_of c σ) →
        (∀ x, x ∈ l → (fst x < length (calls σ))%nat) →
        (∀ c cl, calls (set_pc c' cl' pc (set_sleeps l σ)) !! c = Some cl →
                 sleeps_of c (set_pc c' cl' pc (set_sleeps l σ))
                 = slept (call_pc cl)) ∧
        (∀ x, x ∈ sleeps (set_pc c' cl' pc (set_sleeps l σ)) →
              (fst x < length (calls (set_pc c' cl' pc (set_sleeps l σ))))%nat)).
      { intros pc l Hpc Hoth Hbnd. split.
        - intros c cl Hl. destruct (decide (c = c')) as [->|Hne].
          + simpl in Hl. rewrite list_lookup_insert_eq in Hl by done.
            simplify_eq. simpl. exact Hpc.
          + simpl in Hl. rewrite list_lookup_insert_ne in Hl by done.
            change (sleeps_of c (set_pc c' cl' pc (set_sleeps l σ)))
              with (sleeps_of c (set_sleeps l σ)).
            rewrite Hoth by done. by apply IH1.
        - intros x Hx. simpl in *. rewrite length_insert. by apply Hbnd. }
      destruct (call_pc cl') as [| | |r] eqn:Hpc.
      * destruct (closed b); apply (Hset _ (sleeps σ)); done.
      * apply (Hset pc_select (sleeps σ ++ [(c', safetyDelay)])).
        -- unfold sleeps_of in *. simpl. rewrite filter_app, fmap_app.
           rewrite filter_cons_True by done. by rewrite Hsl.
        -- intros c Hne. unfold sleeps_of. simpl.
           rewrite filter_app, filter_cons_False by (simpl; congruence).
           by rewrite filter_nil, app_nil_r.
        -- intros x Hx. apply elem_of_app in Hx as [Hx|Hx]; [by apply IH2|].
           apply list_elem_of_singleton in Hx as ->. done.
      * destruct (chan_fired (done b) (chans σ));
          apply (Hset _ (sleeps σ)); done.
      * by split.
    + apply Hsame; by destruct (step_EKevent_frame res σ) as (_ & ? & _ & ? & _).
Qed.

End Extras.

(** * The claims at work on darwin *)

#[local] Existing Instance darwin.

Definition caller5 : CallerInfo := {| PID := 5 |}.
Definition watcher5 : bsdWatcher := {| closed := false; done := 0; pid := 5 |}.

(** One watcher for process 5. *)
Definition world1 : World := run [ENewWatcher caller5 None] world0.

Lemma reachable_world0 : reachable world0.
Proof. exists 3%Z, [], world0. by split. Defined.

Lemma reachable_world1 : reachable world1.
Proof. exists 3%Z, [ENewWatcher caller5 None], world0. by split. Defined.

(** A call on an open watcher; process 5 exits while the call sleeps,
    and the loop handles the exit event before the call's check. *)
Lemma IsAlive_sleeps_then_checks_witness :
  let σ := run [EIsAliveCall 0] world1 in
  let env1 := [EProcExit 5] in
  let env2 := [EKevent (inr [exit_event 5])] in
  calls σ !! 0%nat = Some {| call_w := 0; call_pc := pc_lock |} ∧
  watchers σ !! 0%nat = Some watcher5 ∧
  others 0 env1 = true ∧ others 0 env2 = true ∧
  IsAlive_result 0
    (IsAlive_step 0 (run env2 (IsAlive_step 0 (run env1 (IsAlive_step 0 σ)))))
  = Some (Some CallerExitedError).
Proof.
  intros σ env1 env2.
  split; [reflexivity|]. split; [reflexivity|].
  split; [reflexivity|]. split; [reflexivity|].
  exact (proj1 (proj2 (proj2 (proj2 (proj2
    (IsAlive_sleeps_then_checks 0 0 watcher5 σ env1 env2
       eq_refl eq_refl eq_refl eq_refl eq_refl)))))).
Defined.

Lemma IsAlive_after_Close_witness :
  watchers world1 !! 0%nat = Some watcher5 ∧
  fst (IsAlive 0 (run [EProcExit 5] (Watcher_Close 0 world1)))
  = Some (Some NotWatchedError).
Proof.
  split; [reflexivity|].
  exact (proj2 (IsAlive_after_Close 0 watcher5 world1 [EProcExit 5] eq_refl)).
Defined.

Lemma receiveKevents_wait_error_witness :
  receiveKevents [inl EBADF; inl EINTR] (Tracker_Close world1)
  = (LoopReturn, Tracker_Close world1) ∧
  receiveKevents [inl EINTR; inr [exit_event 5]] world1
  = receiveKevents [inr [exit_event 5]] world1 ∧
  receiveKevents [inl EBADF; inr [exit_event 5]] world1
  = (LoopPanic (PanicKqueue EBADF), world1).
Proof.
  split; [|split].
  - exact (proj1 (receiveKevents_wait_error EBADF [inl EINTR]
                    (Tracker_Close world1)) eq_refl).
  - exact (proj2 (proj1 (proj2 (receiveKevents_wait_error EINTR
                    [inr [exit_event 5]] world1)) eq_refl eq_refl)).
  - refine (proj1 (proj2 (proj2 (receiveKevents_wait_error EBADF
                    [inr [exit_event 5]] world1)) eq_refl _)).
    discriminate.
Defined.

(** C6, as the claim has it, fails: a negative PID is not refused; the
    kernel is asked to watch it and the registry gets an entry. *)
Lemma NewWatcher_negative_PID_accepted :
  let info := {| PID := -1 |} in
  let r := NewWatcher info None world0 in
  (PID info <= 0)%Z ∧
  fst r = inr 0%nat ∧ fst r ≠ inl InvalidCallerError ∧
  watchedPIDs (tracker (snd r)) !! (-1)%Z = Some 0%nat ∧
  length (kevent_changes (snd r)) = 1%nat ∧
  snd r ≠ world0.
Proof.
  intros info r. repeat split; [by vm_compute|done|].
  intros Heq. apply (f_equal chans) in Heq. by vm_compute in Heq.
Qed.

Lemma NewWatcher_PID_zero_witness :
  PID {| PID := 0 |} = 0%Z ∧
  NewWatcher {| PID := 0 |} None world1 = (inl InvalidCallerError, world1).
Proof.
  split; [reflexivity|].
  exact (proj1 (NewWatcher_PID_zero {| PID := 0 |} None world1) eq_refl).
Defined.

Lemma NewWatcher_after_Close_witness :
  PID caller5 ≠ 0%Z ∧
  NewWatcher caller5 None (run [EProcExit 1] (Tracker_Close world1))
  = (inl ClosedError, run [EProcExit 1] (Tracker_Close world1)).
Proof.
  assert (Hp : PID caller5 ≠ 0%Z) by discriminate.
  split; [exact Hp|].
  exact (NewWatcher_after_Close caller5 None world1 [EProcExit 1] Hp).
Defined.

Lemma NewWatcher_registration_fails_witness :
  let r := NewWatcher caller5 (Some ENOMEM) world0 in
  PID caller5 ≠ 0%Z ∧ ctx_done (tracker world0) = false ∧
  watchedPIDs (tracker world0) !! PID caller5 = None ∧
  fst r = inl (WatchCreationError ENOMEM) ∧ tracker (snd r) = tracker world0.
Proof.
  intros r.
  assert (Hp : PID caller5 ≠ 0%Z) by discriminate.
  split; [exact Hp|]. split; [reflexivity|]. split; [reflexivity|].
  pose proof (NewWatcher_registration_fails caller5 ENOMEM None world0
                Hp eq_refl eq_refl) as (H1 & H2 & _).
  exact (conj H1 H2).
Defined.

Lemma IsAlive_closed_does_not_sleep_witness :
  let σ := Watcher_Close 0 world1 in
  watchers σ !! 0%nat = Some (set_closed watcher5) ∧
  fst (IsAlive 0 σ) = Some (Some NotWatchedError) ∧
  sleeps (snd (IsAlive 0 σ)) = sleeps σ.
Proof.
  intros σ. split; [reflexivity|].
  exact (proj2 (proj1 (IsAlive_closed_does_not_sleep 0 (set_closed watcher5) σ
                         eq_refl) eq_refl)).
Defined.


Lemma registry_entry_lifecycle_witness :
  let σ' := step (EKevent (inr [exit_event 5])) world1 in
  reachable world1 ∧
  watchedPIDs (tracker σ') !! 5%Z = None ∧ chans σ' !! 0%nat = Some true.
Proof.
  intros σ'. split; [exact reachable_world1|].
  pose proof (registry_entry_lifecycle world1 (EKevent (inr [exit_event 5]))
                reachable_world1) as (_ & _ & _ & _ & Hx & _).
  destruct (Hx 5%Z 0%nat eq_refl eq_refl eq_refl) as (H1 & H2 & _).
  exact (conj H1 H2).
Defined.

(** C7, as the claim has it, fails: process 5 exits after [NewWatcher]
    has succeeded and while the call of [IsAlive] sleeps; the loop has
    not handled the exit event when the call checks, and the call
    returns nil. *)
Lemma IsAlive_misses_unobserved_exit :
  let σ := run [EIsAliveCall 0; EIsAliveStep 0; EIsAliveStep 0; EProcExit 5]
               (snd (NewWatcher caller5 None world0)) in
  fst (NewWatcher caller5 None world0) = inr 0%nat ∧
  IsAlive_result 0 σ = None ∧ exited σ = [5%Z] ∧
  IsAlive_result 0 (IsAlive_step 0 σ) = Some None ∧
  IsAlive_result 0 (IsAlive_step 0 σ) ≠ Some (Some CallerExitedError).
Proof. by vm_compute. Qed.

Lemma IsAlive_after_observed_exit_witness :
  let pre := [EIsAliveCall 0; EIsAliveStep 0; EIsAliveStep 0; EProcExit 5] in
  let σ2 := run pre (snd (NewWatcher caller5 None world0)) in
  let σ4 := run [] (step (EKevent (inr [exit_event 5])) σ2) in
  reachable world0 ∧ fst (NewWatcher caller5 None world0) = inr 0%nat ∧
  loop σ2 = LoopRunning ∧ existsb (exit_for 5) [exit_event 5] = true ∧
  calls σ4 !! 0%nat = Some {| call_w := 0; call_pc := pc_select |} ∧
  IsAlive_result 0 (IsAlive_step 0 σ4) = Some (Some CallerExitedError).
Proof.
  intros pre σ2 σ4.
  split; [exact reachable_world0|]. split; [reflexivity|].
  split; [reflexivity|]. split; [reflexivity|]. split; [reflexivity|].
  exact (IsAlive_after_observed_exit caller5 None world0 0 pre
           [exit_event 5] [] 0 reachable_world0 eq_refl eq_refl eq_refl eq_refl).
Defined.

(** ** The further properties at work on darwin *)

(** Process 5 is watched, the tracker is closed and the loop has
    returned. *)
Definition world_closed : World :=
  run [ENewWatcher caller5 None; ETrackerClose; EKevent (inl EBADF)] world0.

(** Process 5 is watched and the loop has handled its exit. *)
Definition world_exited : World :=
  run [ENewWatcher caller5 None; EKevent (inr [exit_event 5])] world0.

(** Two watchers for process 5. *)
Definition world2 : World :=
  run [ENewWatcher caller5 None; ENewWatcher caller5 None] world0.

(** A call of [IsAlive] on the watcher of process 5 that has slept. *)
Definition world_slept : World :=
  run [ENewWatcher caller5 None; EIsAliveCall 0; EIsAliveStep 0; EIsAliveStep 0]
      world0.

Lemma reachable_world_closed : reachable world_closed.
Proof.
  exists 3%Z, [ENewWatcher caller5 None; ETrackerClose; EKevent (inl EBADF)],
         world0.
  by split.
Defined.

Lemma reachable_world_exited : reachable world_exited.
Proof.
  exists 3%Z, [ENewWatcher caller5 None; EKevent (inr [exit_event 5])], world0.
  by split.
Defined.

Lemma reachable_world_slept : reachable world_slept.
Proof.
  exists 3%Z, [ENewWatcher caller5 None; EIsAliveCall 0; EIsAliveStep 0;
               EIsAliveStep 0], world0.
  by split.
Defined.

Lemma dispatch_loop_ends_well_witness :
  reachable world_closed ∧
  fst (handle_kevents [exit_event 5; exit_event 5] world_closed) = None ∧
  (loop world_closed = LoopReturned → ctx_done (tracker world_closed) = true).
Proof.
  split; [exact reachable_world_closed|].
  pose proof (dispatch_loop_ends_well world_closed reachable_world_closed)
    as (H1 & H2 & _).
  exact (conj (H1 [exit_event 5; exit_event 5]) H2).
Defined.

Lemma loop_after_Close_never_panics_witness :
  reachable world1 ∧ loop world1 = LoopRunning ∧
  loop (step (EKevent (inl EBADF)) (Tracker_Close world1)) = LoopReturned.
Proof.
  split; [exact reachable_world1|]. split; [reflexivity|].
  exact (proj1 (loop_after_Close_never_panics world1 EBADF []
                  reachable_world1 eq_refl)).
Defined.

Lemma no_exit_seen_once_loop_ended_witness :
  let tr := [EProcExit 5; EKevent (inr [exit_event 5])] in
  reachable world_closed ∧ loop world_closed ≠ LoopRunning ∧
  watchers world_closed !! 0%nat = Some watcher5 ∧
  chans world_closed !! done watcher5 = Some false ∧
  ∃ b', watchers (run tr world_closed) !! 0%nat = Some b' ∧
        fst (IsAlive 0 (run tr world_closed))
        = Some (if closed b' then Some NotWatchedError else None).
Proof.
  intros tr.
  assert (Hl : loop world_closed ≠ LoopRunning) by discriminate.
  split; [exact reachable_world_closed|]. split; [exact Hl|].
  split; [reflexivity|]. split; [reflexivity|].
  exact (no_exit_seen_once_loop_ended 0 watcher5 world_closed tr
           reachable_world_closed Hl eq_refl eq_refl).
Defined.

Lemma exited_stays_exited_witness :
  let tr := [ENewWatcher caller5 None; EProcExit 5] in
  reachable world_exited ∧
  watchers world_exited !! 0%nat = Some watcher5 ∧
  chans world_exited !! done watcher5 = Some true ∧
  ∃ b', watchers (run tr world_exited) !! 0%nat = Some b' ∧
        fst (IsAlive 0 (run tr world_exited))
        = Some (Some (if closed b' then NotWatchedError else CallerExitedError)).
Proof.
  intros tr. split; [exact reachable_world_exited|].
  split; [reflexivity|]. split; [reflexivity|].
  exact (exited_stays_exited 0 watcher5 world_exited tr
           reachable_world_exited eq_refl eq_refl).
Defined.

Lemma Watcher_PID_stable_witness :
  fst (NewWatcher caller5 None world0) = inr 0%nat ∧
  Watcher_PID 0 (run [EWatcherClose 0] (snd (NewWatcher caller5 None world0)))
  = Some 5%Z.
Proof.
  split; [reflexivity|].
  exact (Watcher_PID_stable caller5 None world0 0 [EWatcherClose 0] eq_refl).
Defined.

Lemma Watcher_Close_touches_one_witness :
  0%nat ≠ 1%nat ∧
  fst (IsAlive 1 (Watcher_Close 0 world2)) = fst (IsAlive 1 world2).
Proof.
  assert (Hne : 0%nat ≠ 1%nat) by discriminate.
  split; [exact Hne|].
  exact (proj1 (Watcher_Close_touches_one 0 1 world2 Hne)).
Defined.

(** A read event on descriptor 5 and the exit of process 9, which is
    not watched. *)
Lemma receiveKevents_passes_over_witness :
  let evs := [{| Ident := 5; Filter := -1; Flags := 0; Fflags := 0; Data := 0 |};
              exit_event 9] in
  Forall (passed_over world1) evs ∧
  receiveKevents_iter (inr evs) world1 = (LoopContinue, world1).
Proof.
  intros evs.
  assert (Hp : Forall (passed_over world1) evs).
  { constructor; [by left|]. constructor; [|constructor].
    right; right. exists 9%Z. by split. }
  split; [exact Hp|].
  exact (proj1 (receiveKevents_passes_over evs [] world1 Hp)).
Defined.

Lemma exit_batch_idempotent_witness :
  reachable world1 ∧ loop world1 = LoopRunning ∧
  step (EKevent (inr [exit_event 5])) (step (EKevent (inr [exit_event 5])) world1)
  = step (EKevent (inr [exit_event 5])) world1.
Proof.
  split; [exact reachable_world1|]. split; [reflexivity|].
  exact (exit_batch_idempotent [exit_event 5] world1 reachable_world1 eq_refl).
Defined.

Lemma NewWatcher_after_exit_witness :
  let σ1 := step (EKevent (inr [exit_event 5])) world1 in
  let r := NewWatcher caller5 None σ1 in
  reachable world1 ∧ loop world1 = LoopRunning ∧
  ctx_done (tracker world1) = false ∧ PID caller5 ≠ 0%Z ∧
  watchedPIDs (tracker world1) !! PID caller5 = Some 0%nat ∧
  existsb (exit_for (PID caller5)) [exit_event 5] = true ∧
  fst r = inr (length (watchers σ1)) ∧ length (chans σ1) ≠ 0%nat.
Proof.
  intros σ1 r.
  assert (Hz : PID caller5 ≠ 0%Z) by discriminate.
  split; [exact reachable_world1|]. split; [reflexivity|].
  split; [reflexivity|]. split; [exact Hz|].
  split; [reflexivity|]. split; [reflexivity|].
  pose proof (NewWatcher_after_exit caller5 [exit_event 5] 0 world1
                reachable_world1 eq_refl eq_refl Hz eq_refl eq_refl)
    as (H1 & H2 & _).
  exact (conj H1 H2).
Defined.

Lemma open_signals_are_registered_witness :
  reachable world1 ∧
  (chans world1 !! 0%nat = Some false ↔
   ∃ p, watchedPIDs (tracker world1) !! p = Some 0%nat).
Proof.
  split; [exact reachable_world1|].
  exact (open_signals_are_registered world1 0 reachable_world1).
Defined.

Lemma signals_match_registrations_witness :
  reachable world_exited ∧
  length (chans world_exited) = length (accepted world_exited).
Proof.
  split; [exact reachable_world_exited|].
  exact (proj1 (signals_match_registrations world_exited reachable_world_exited)).
Defined.

Lemma PID_zero_never_watched_witness :
  reachable world1 ∧ Forall (λ k, kc_pid k ≠ 0%Z) (kevent_changes world1).
Proof.
  split; [exact reachable_world1|].
  exact (proj2 (proj2 (PID_zero_never_watched world1 reachable_world1))).
Defined.

Lemma registered_kevent_fires_witness :
  to_int16 EVFILT_PROC = EVFILT_PROC ∧ (0 < NOTE_EXIT)%Z ∧
  CheckedCast_int (to_uint64 (PID caller5)) = Some (PID caller5) ∧
  reachable world0 ∧ loop world0 = LoopRunning ∧
  watchedPIDs (tracker world0) !! PID caller5 = None ∧
  fst (NewWatcher caller5 None world0) = inr 0%nat ∧
  ∃ k, last (kevent_changes world1) = Some k ∧
       kc_pid k = PID caller5 ∧ kc_err k = None ∧
       exit_for (PID caller5) (kc_change k) = true ∧
       fst (IsAlive 0 (step (EKevent (inr [kc_change k])) world1))
       = Some (Some CallerExitedError).
Proof.
  assert (Hn : (0 < NOTE_EXIT)%Z) by reflexivity.
  split; [reflexivity|]. split; [exact Hn|]. split; [reflexivity|].
  split; [exact reachable_world0|]. split; [reflexivity|].
  split; [reflexivity|]. split; [reflexivity|].
  exact (registered_kevent_fires caller5 world0 0 eq_refl Hn eq_refl
           reachable_world0 eq_refl eq_refl eq_refl).
Defined.

Lemma calls_sleep_once_witness :
  reachable world_slept ∧
  calls world_slept !! 0%nat = Some {| call_w := 0; call_pc := pc_select |} ∧
  sleeps_of 0 world_slept = [safetyDelay].
Proof.
  split; [exact reachable_world_slept|]. split; [reflexivity|].
  exact (calls_sleep_once world_slept 0 {| call_w := 0; call_pc := pc_select |}
           reachable_world_slept eq_refl).
Defined.

End peertracker.

(** * Properties of the cache of attested nodes *)

Module nodecache_facts.
Import nodecache.

Lemma build_fold l acc id :
  buildTime (foldl build_step acc l) = buildTime acc ∧
  nodeRefreshTime (foldl build_step acc l) = nodeRefreshTime acc ∧
  nodes (foldl build_step acc l) !! id
  = match last_with id l with
    | Some n => Some (Some n)
    | None => nodes acc !! id
    end.
Proof.
  revert acc. induction l as [|n l IH]; intros acc; [done|].
  destruct (IH (build_step acc n)) as (Hb & Hr & Hn).
  simpl. rewrite Hb, Hr, Hn. repeat split.
  unfold last_with. rewrite filter_cons.
  destruct (decide (SpiffeId n = id)) as [<-|Hne].
  - destruct (filter (λ n0, SpiffeId n0 = SpiffeId n) l) as [|m l'] eqn:Hf.
    + simpl. by rewrite lookup_insert_eq.
    + change (last (n :: m :: l')) with (last (m :: l')).
      destruct (last (m :: l')) eqn:E; [done|]. by apply last_None in E.
  - destruct (last (filter (λ n0, SpiffeId n0 = id) l)); [done|].
    simpl. by rewrite lookup_insert_ne.
Qed.

Lemma Build_inv now ds c :
  BuildFromDatastore now ds = inr c →
  ∃ resp, ListAttestedNodes ds {| ValidAt := now |} = inr resp ∧
          c = foldl build_step
                {| buildTime := now; nodes := ∅; nodeRefreshTime := ∅ |}
                (Nodes resp).
Proof.
  unfold BuildFromDatastore.
  destruct (ListAttestedNodes ds {| ValidAt := now |}) as [err|resp]; [done|].
  intros [= <-]. by exists resp.
Qed.

(** X15: a cache built from the datastore answers, for an id, the last
    node of that id that the datastore listed as valid at the build
    time, together with the build time; for an id that was not listed
    it answers no node and the zero time; it never answers an error. *)
Theorem Fetch_after_Build now ds resp c id :
  ListAttestedNodes ds {| ValidAt := now |} = inr resp →
  BuildFromDatastore now ds = inr c →
  FetchAttestedNode id c
  = match last_with id (Nodes resp) with
    | Some n => (Some n, now, None)
    | None => (None, zeroTime, None)
    end.
Proof.
  intros Hl Hb. destruct (Build_inv now ds c Hb) as (resp' & Hl' & ->).
  rewrite Hl in Hl'. injection Hl' as <-.
  destruct (build_fold (Nodes resp)
              {| buildTime := now; nodes := ∅; nodeRefreshTime := ∅ |} id)
    as (Hbt & Hrt & Hn).
  unfold FetchAttestedNode. rewrite Hn, Hrt, Hbt. simpl.
  destruct (last_with id (Nodes resp)); by rewrite ?lookup_empty.
Qed.

(** X16: when the datastore fails, [RefreshAttestedNode] returns its
    error and the cache is as before.  When it answers, the cache
    answers for that id what the datastore answered, a nil node
    included, with the time of the refresh; the other ids are answered
    as before. *)
Theorem Fetch_after_Refresh now ds id c :
  (∀ err, ds_FetchAttestedNode ds id = inl err →
          RefreshAttestedNode now ds id c = (inl err, c)) ∧
  (∀ node, ds_FetchAttestedNode ds id = inr node →
     let c' := snd (RefreshAttestedNode now ds id c) in
     fst (RefreshAttestedNode now ds id c) = inr node ∧
     FetchAttestedNode id c' = (node, now, None) ∧
     ∀ id', id' ≠ id → FetchAttestedNode id' c' = FetchAttestedNode id' c).
Proof.
  unfold RefreshAttestedNode. split.
  - by intros err ->.
  - intros node ->. simpl. repeat split.
    + unfold FetchAttestedNode. simpl. by rewrite !lookup_insert_eq.
    + intros id' Hne. unfold FetchAttestedNode. simpl.
      by rewrite !lookup_insert_ne.
Qed.

Lemma apply_op_inv o c :
  buildTime (apply_op o c) = buildTime c ∧
  dom (nodes c) ⊆ dom (nodes (apply_op o c)) ∧
  (dom (nodeRefreshTime c) ⊆ dom (nodes c) →
   dom (nodeRefreshTime (apply_op o c)) ⊆ dom (nodes (apply_op o c))).
Proof.
  destruct o as [now ds id| |[err|]]; simpl; try done.
  unfold RefreshAttestedNode.
  destruct (ds_FetchAttestedNode ds id) as [err|node]; simpl; [done|].
  rewrite !dom_insert_L. repeat split.
  - apply union_subseteq_r.
  - intros Hs. by apply union_mono_l.
Qed.

(** X17: the cache never forgets an id: whatever refreshes and
    rebuilds follow the build, every id it held is still held (no node
    is evicted, an expired one neither), the build time stays, and only
    ids that are held have a refresh time. *)
Theorem cache_never_forgets now ds c os :
  BuildFromDatastore now ds = inr c →
  let c' := apply_ops os c in
  buildTime c' = now ∧
  dom (nodes c) ⊆ dom (nodes c') ∧
  dom (nodeRefreshTime c') ⊆ dom (nodes c').
Proof.
  intros Hb c'.
  assert (H0 : buildTime c = now ∧ dom (nodeRefreshTime c) ⊆ dom (nodes c)).
  { destruct (Build_inv now ds c Hb) as (resp & _ & ->).
    destruct (build_fold (Nodes resp)
                {| buildTime := now; nodes := ∅; nodeRefreshTime := ∅ |} ""%string)
      as (-> & -> & _). split; [done|]. simpl.
    rewrite dom_empty_L. apply empty_subseteq. }
  destruct H0 as [H1 H2]. subst c'. clear Hb. rewrite <- H1. clear H1.
  revert c H2. induction os as [|o os IH]; intros c H2; [done|].
  destruct (apply_op_inv o c) as (Hb & Hd & Hr).
  destruct (IH (apply_op o c) (Hr H2)) as (Hb' & Hd' & Hr').
  change (apply_ops (o :: os) c) with (apply_ops os (apply_op o c)).
  repeat split; [congruence| |done]. by etrans.
Qed.

Lemma apply_ops_times t os c :
  clock_from t os → (t ≤ buildTime c)%Z →
  (∀ id x, nodeRefreshTime c !! id = Some x → (t ≤ x)%Z) →
  (t ≤ buildTime (apply_ops os c))%Z ∧
  (∀ id x, nodeRefreshTime (apply_ops os c) !! id = Some x → (t ≤ x)%Z).
Proof.
  intros Hc. revert c. induction Hc as [|o os Ho _ IH]; intros c Hb Hr; [done|].
  change (apply_ops (o :: os) c) with (apply_ops os (apply_op o c)).
  apply IH.
  - by destruct (apply_op_inv o c) as (-> & _).
  - destruct o as [now ds id| |[err|]]; simpl; try done.
    unfold RefreshAttestedNode.
    destruct (ds_FetchAttestedNode ds id) as [err|node]; simpl; [done|].
    intros id' x Hx. apply lookup_insert_Some in Hx as [[_ <-]|[_ Hx]]; eauto.
Qed.

(** X18: with a clock that does not run backwards, the time the cache
    answers for an id it holds is never before the build time. *)
Theorem Fetch_time_from_build now ds c os id :
  BuildFromDatastore now ds = inr c → clock_from now os →
  is_Some (nodes (apply_ops os c) !! id) →
  (now ≤ snd (fst (FetchAttestedNode id (apply_ops os c))))%Z.
Proof.
  intros Hb Hc [node Hn].
  destruct (Build_inv now ds c Hb) as (resp & _ & Hcq).
  destruct (build_fold (Nodes resp)
              {| buildTime := now; nodes := ∅; nodeRefreshTime := ∅ |} id)
    as (Hbt & Hrt & _). rewrite <- Hcq in Hbt, Hrt. simpl in Hbt, Hrt.
  destruct (apply_ops_times now os c Hc) as [H1 H2].
  - rewrite Hbt. lia.
  - intros id' x. rewrite Hrt. by rewrite lookup_empty.
  - unfold FetchAttestedNode. rewrite Hn.
    destruct (nodeRefreshTime (apply_ops os c) !! id) as [x|] eqn:Hx; simpl;
      eauto.
Qed.

(** ** On the agents of the test *)

Lemma Fetch_after_Build_witness :
  ListAttestedNodes fake_ds {| ValidAt := 100%Z |}
  = inr {| Nodes := [firstAgent; secondAgent; secondAgentUpdated] |} ∧
  BuildFromDatastore 100%Z fake_ds = inr fake_cache ∧
  FetchAttestedNode (SpiffeId secondAgent) fake_cache
  = (Some secondAgentUpdated, 100%Z, None) ∧
  FetchAttestedNode "spiffe://example.org/agent-expired" fake_cache
  = (None, zeroTime, None).
Proof.
  split; [reflexivity|]. split; [reflexivity|]. split.
  - exact (Fetch_after_Build 100%Z fake_ds _ fake_cache (SpiffeId secondAgent)
             eq_refl eq_refl).
  - exact (Fetch_after_Build 100%Z fake_ds _ fake_cache
             "spiffe://example.org/agent-expired" eq_refl eq_refl).
Defined.

Lemma Fetch_after_Refresh_witness :
  let id := SpiffeId firstAgent in
  ds_FetchAttestedNode fake_ds id = inr None ∧
  FetchAttestedNode id (snd (RefreshAttestedNode 200%Z fake_ds id fake_cache))
  = (None, 200%Z, None) ∧
  RefreshAttestedNode 200%Z failing_ds id fake_cache
  = (inl "datastore is down"%string, fake_cache).
Proof.
  intros id. split; [reflexivity|]. split.
  - exact (proj1 (proj2 (proj2 (Fetch_after_Refresh 200%Z fake_ds id fake_cache)
                           None eq_refl))).
  - exact (proj1 (Fetch_after_Refresh 200%Z failing_ds id fake_cache) _ eq_refl).
Defined.

Lemma cache_never_forgets_witness :
  let os := [ORefresh 200%Z fake_ds (SpiffeId firstAgent); ORebuild;
             OPeriodicRebuild Tick] in
  BuildFromDatastore 100%Z fake_ds = inr fake_cache ∧
  buildTime (apply_ops os fake_cache) = 100%Z ∧
  dom (nodes fake_cache) ⊆ dom (nodes (apply_ops os fake_cache)).
Proof.
  intros os. split; [reflexivity|].
  pose proof (cache_never_forgets 100%Z fake_ds fake_cache os eq_refl)
    as (H1 & H2 & _).
  exact (conj H1 H2).
Defined.

Lemma Fetch_time_from_build_witness :
  let os := [ORefresh 200%Z fake_ds (SpiffeId firstAgent)] in
  BuildFromDatastore 100%Z fake_ds = inr fake_cache ∧ clock_from 100%Z os ∧
  is_Some (nodes (apply_ops os fake_cache) !! SpiffeId firstAgent) ∧
  (100%Z ≤ snd (fst (FetchAttestedNode (SpiffeId firstAgent)
                     (apply_ops os fake_cache))))%Z.
Proof.
  intros os.
  assert (Hc : clock_from 100%Z os) by (constructor; [by compute|constructor]).
  assert (Hs : is_Some (nodes (apply_ops os fake_cache) !! SpiffeId firstAgent))
    by (by exists None).
  split; [reflexivity|]. split; [exact Hc|]. split; [exact Hs|].
  exact (Fetch_time_from_build 100%Z fake_ds fake_cache os (SpiffeId firstAgent)
           eq_refl Hc Hs).
Defined.

End nodecache_facts.

(** * Properties of the show command *)

Module template_facts.
Import template.

Lemma fetch_loop_pages pages lastp rest st :
  more_pages pages → NextPageToken lastp = ""%string →
  fetch_loop (map inr pages ++ inr lastp :: rest) st
  = Some (inr {| Templates := gathered st ++ concat (map Templates pages)
                              ++ Templates lastp;
                 NextPageToken := "" |},
          sent st ++ map page_request (pageToken st :: map NextPageToken pages)).
Proof.
  intros Hp Hl. revert st. induction Hp as [|p pages Hne _ IH]; intros st.
  - simpl. by rewrite Hl.
  - simpl. apply String.eqb_neq in Hne. rewrite Hne, IH. simpl.
    by rewrite <- !app_assoc.
Qed.

Lemma fetch_loop_error pages err rest st :
  more_pages pages →
  fetch_loop (map inr pages ++ inl err :: rest) st
  = Some (inl (wrap_fetch_error err),
          sent st ++ map page_request (pageToken st :: map NextPageToken pages)).
Proof.
  intros Hp. revert st. induction Hp as [|p pages Hne _ IH]; intros st.
  - done.
  - simpl. apply String.eqb_neq in Hne. rewrite Hne, IH. simpl.
    by rewrite <- !app_assoc.
Qed.

Lemma fetch_loop_waits answers st :
  fetch_loop answers st = None ↔
  ∃ pages, answers = map inr pages ∧ more_pages pages.
Proof.
  split.
  - revert st. induction answers as [|[err|resp] answers IH]; intros st Hf.
    + exists []. split; [done|constructor].
    + done.
    + simpl in Hf. destruct (String.eqb_spec (NextPageToken resp) ""); [done|].
      destruct (IH _ Hf) as (pages & -> & Hp).
      exists (resp :: pages). split; [done|]. by constructor.
  - intros (pages & -> & Hp). revert st.
    induction Hp as [|p pages Hne _ IH]; intros st; [done|].
    simpl. apply String.eqb_neq in Hne. by rewrite Hne.
Qed.

(** X19: when the server answers page after page, each but the last
    naming a next page, [fetchEntries] returns the templates of all the
    pages in order; it has sent one request per page, of page size 500,
    the first with the empty token and each next one with the token the
    page before named; what the server would answer after the last page
    is not asked. *)
Theorem fetchEntries_gathers_pages c pages lastp rest :
  more_pages pages → NextPageToken lastp = ""%string →
  fetchEntries c (map inr pages ++ inr lastp :: rest)
  = Some (inr {| Templates := concat (map Templates (pages ++ [lastp]));
                 NextPageToken := "" |},
          map page_request (""%string :: map NextPageToken pages)).
Proof.
  intros Hp Hl. unfold fetchEntries. rewrite fetch_loop_pages by done.
  simpl. rewrite map_app, concat_app. simpl. by rewrite app_nil_r.
Qed.

(** X20: when the server fails on a page, [fetchEntries] returns the
    error, wrapped, and none of the templates of the pages before; no
    request follows the failed one. *)
Theorem fetchEntries_error_discards c pages err rest :
  more_pages pages →
  fetchEntries c (map inr pages ++ inl err :: rest)
  = Some (inl (wrap_fetch_error err),
          map page_request (""%string :: map NextPageToken pages)).
Proof. intros Hp. unfold fetchEntries. by rewrite fetch_loop_error. Qed.

(** X21: [fetchEntries] comes to an end exactly when the server fails
    or answers a page that names no next page: it is still waiting
    (and would ask for ever) exactly when every answer so far named a
    next page. *)
Theorem fetchEntries_waits c answers :
  fetchEntries c answers = None ↔
  ∃ pages, answers = map inr pages ∧ more_pages pages.
Proof. apply fetch_loop_waits. Qed.

Lemma validate_None c :
  validate c = None ↔
  templateID c = ""%string ∨ (parentID c = ""%string ∧ selectors c = []).
Proof.
  unfold validate.
  destruct (String.eqb_spec (templateID c) "") as [Ht|Ht]; simpl.
  { split; [by left|done]. }
  destruct (String.eqb_spec (parentID c) "") as [Hp|Hp]; simpl.
  - destruct (selectors c) as [|x l]; simpl.
    + split; [by right|done].
    + split; [done|]. intros [?|[_ ?]]; done.
  - split; [done|]. intros [?|[? _]]; done.
Qed.

(** X22: [validate] refuses the command exactly when a template id is
    combined with a parent id or a selector, and then [Run] sends no
    request; the hint, the federated trust domains, the downstream
    flag and the match modes are never refused.  And none of the flags
    reaches the server: two commands that pass [validate] send the same
    requests and print the same answer. *)
Theorem Run_ignores_flags c c' answers :
  (validate c = None ↔
   templateID c = ""%string ∨ (parentID c = ""%string ∧ selectors c = [])) ∧
  (∀ err, validate c = Some err → Run c answers = Some (inl err, [])) ∧
  (validate c = None → validate c' = None → Run c answers = Run c' answers).
Proof.
  split; [apply validate_None|]. split.
  - intros err Hv. unfold Run. by rewrite Hv.
  - intros Hv Hv'. unfold Run. by rewrite Hv, Hv'.
Qed.


(** ** On three pages *)

Lemma more_pages_12 : more_pages [page1; page2].
Proof. constructor; [discriminate|]. constructor; [discriminate|constructor]. Defined.

Lemma fetchEntries_gathers_pages_witness :
  more_pages [page1; page2] ∧ NextPageToken page3 = ""%string ∧
  fetchEntries show_all [inr page1; inr page2; inr page3; inl "unused"%string]
  = Some (inr {| Templates := [{| Id := "a" |}; {| Id := "b" |};
                               {| Id := "c" |}; {| Id := "d" |}];
                 NextPageToken := "" |},
          [page_request ""; page_request "t1"; page_request "t2"]).
Proof.
  split; [exact more_pages_12|]. split; [reflexivity|].
  exact (fetchEntries_gathers_pages show_all [page1; page2] page3
           [inl "unused"%string] more_pages_12 eq_refl).
Defined.

Lemma fetchEntries_error_discards_witness :
  more_pages [page1; page2] ∧
  fetchEntries show_all [inr page1; inr page2; inl "unavailable"%string]
  = Some (inl (wrap_fetch_error "unavailable"),
          [page_request ""; page_request "t1"; page_request "t2"]).
Proof.
  split; [exact more_pages_12|].
  exact (fetchEntries_error_discards show_all [page1; page2] "unavailable" []
           more_pages_12).
Defined.

Lemma fetchEntries_waits_witness :
  fetchEntries show_all [inr page1; inr page2] = None.
Proof.
  apply (proj2 (fetchEntries_waits show_all [inr page1; inr page2])).
  exists [page1; page2]. split; [reflexivity|exact more_pages_12].
Defined.

Lemma Run_ignores_flags_witness :
  validate show_clash
  = Some "the -templateID flag can't be combined with others"%string ∧
  Run show_clash [inr page3]
  = Some (inl "the -templateID flag can't be combined with others"%string, []).
Proof.
  split; [reflexivity|].
  exact (proj1 (proj2 (Run_ignores_flags show_clash show_all [inr page3]))
           _ eq_refl).
Defined.


End template_facts.
